(** * compose-to-quadlet-nix: a shallow embedding of [compose_to_quadlet.py]

    The converter reads a parsed Compose document (nested dicts, lists and
    scalars), derives three tables (volumes, variables, dependencies) and
    prints a Nix expression.  Python values are modelled by the inductive
    type [value]; a [str] is a list of characters, a [dict] an association
    list in insertion order, an exception a value of [exn] carried by the
    [result] monad.  The regular expressions of the source are run by a
    small backtracking matcher with the leftmost, greedy discipline of
    Python's [re] module.

    A character is a code point below 256.  Outside the model: YAML
    floats and timestamps (no [str()] for them), non-string mapping keys,
    text with a character from 256 on. *)

From Stdlib Require Import Ascii String ZArith Lia Bool Arith List.
From Stdlib Require Import DecimalString.
Import ListNotations.

Set Implicit Arguments.
Local Open Scope char_scope.
Local Open Scope list_scope.

(** ** Strings *)

Definition str : Type := list ascii.

Definition txt (s : string) : str := list_ascii_of_string s.

Definition ch_eqb (a b : ascii) : bool := Ascii.eqb a b.

Fixpoint str_eqb (a b : str) : bool :=
  match a, b with
  | [], [] => true
  | x :: a', y :: b' => ch_eqb x y && str_eqb a' b'
  | _, _ => false
  end.

(** [s.startswith(p)] *)
Fixpoint startswith (p s : str) : bool :=
  match p, s with
  | [], _ => true
  | x :: p', y :: s' => ch_eqb x y && startswith p' s'
  | _ :: _, [] => false
  end.

(** [s.endswith(p)] *)
Definition endswith (p s : str) : bool :=
  startswith (rev p) (rev s).

(** [c in s] for a one-character [c] *)
Fixpoint contains_ch (c : ascii) (s : str) : bool :=
  match s with
  | [] => false
  | x :: s' => ch_eqb x c || contains_ch c s'
  end.

(** [s.split(c)] for a one-character separator: the pieces between the
    occurrences of [c], empty pieces kept. *)
Fixpoint split_ch (c : ascii) (s : str) : list str :=
  match s with
  | [] => [[]]
  | x :: s' =>
      if ch_eqb x c then [] :: split_ch c s'
      else match split_ch c s' with
           | p :: ps => (x :: p) :: ps
           | [] => [[x]]
           end
  end.

(** [s.replace(old, new, 1)]: the first occurrence of a non-empty [old],
    scanning from the left, is replaced; no occurrence leaves [s] as is. *)
Fixpoint replace_first (old new s : str) : str :=
  if startswith old s then new ++ skipn (length old) s
  else match s with
       | [] => []
       | x :: s' => x :: replace_first old new s'
       end.

(** [sep.join(parts)] *)
Fixpoint join (sep : str) (parts : list str) : str :=
  match parts with
  | [] => []
  | [p] => p
  | p :: ps => p ++ sep ++ join sep ps
  end.

(** [s.lower()]: among the code points below 256 the upper-case letters
    are A-Z (65-90) and the accented capitals 192-222 without the
    multiplication sign 215; each goes to the code point 32 above it and
    every other character stays. *)
Definition lower_ch (c : ascii) : ascii :=
  let n := nat_of_ascii c in
  if ((65 <=? n)%nat && (n <=? 90)%nat)
     || ((192 <=? n)%nat && (n <=? 222)%nat && negb (Nat.eqb n 215))
  then ascii_of_nat (n + 32)
  else c.

Definition lower (s : str) : str := map lower_ch s.

(** ** Regular expressions

    The fragment of Python's [re] syntax that the source uses: a literal
    character, the greedy repetitions [[^c]+] and [[^c]*] of a negated
    one-character class, concatenation, the greedy optional group [(?:r)?]
    and the numbered capturing group [(r)]. *)

Inductive regex : Type :=
| RChar (c : ascii)
| RPlusNot (c : ascii)
| RStarNot (c : ascii)
| RSeq (r1 r2 : regex)
| ROpt (r : regex)
| RGroup (n : nat) (r : regex).

Definition captures : Type := list (nat * str).

(** [[^c]*] followed by the continuation [k]: the longest run is tried
    first, then one character is given back at a time. *)
Fixpoint star_not (A : Type) (c : ascii) (s : str) (k : str -> option A)
  : option A :=
  match s with
  | [] => k []
  | x :: s' =>
      if ch_eqb x c then k s
      else match star_not c s' k with
           | Some a => Some a
           | None => k s
           end
  end.

(** The text consumed between the position [s] and the later position [s']. *)
Definition consumed (s s' : str) : str :=
  firstn (length s - length s') s.

(** Backtracking match of [r] at the head of [s], in continuation-passing
    style: [k] receives the remaining text and the captures made so far and
    answers [None] to ask for the next alternative. *)
Fixpoint rmatch (A : Type) (r : regex) (s : str) (g : captures)
  (k : str -> captures -> option A) : option A :=
  match r with
  | RChar c =>
      match s with
      | x :: s' => if ch_eqb x c then k s' g else None
      | [] => None
      end
  | RPlusNot c =>
      match s with
      | x :: s' =>
          if ch_eqb x c then None else star_not c s' (fun t => k t g)
      | [] => None
      end
  | RStarNot c => star_not c s (fun t => k t g)
  | RSeq r1 r2 => rmatch r1 s g (fun t g1 => rmatch r2 t g1 k)
  | ROpt r1 =>
      match rmatch r1 s g k with
      | Some a => Some a
      | None => k s g
      end
  | RGroup n r1 =>
      rmatch r1 s g (fun t g1 => k t ((n, consumed s t) :: g1))
  end.

(** A match object: the captures, the number of groups of the pattern and
    the text after the match. *)
Record match_obj : Type := MkMatch {
  m_caps : captures;
  m_ngroups : nat;
  m_rest : str
}.

Fixpoint ngroups (r : regex) : nat :=
  match r with
  | RChar _ | RPlusNot _ | RStarNot _ => 0
  | RSeq r1 r2 => ngroups r1 + ngroups r2
  | ROpt r1 => ngroups r1
  | RGroup _ r1 => S (ngroups r1)
  end.

(** [pattern.match(s)]: a match anchored at the head of [s]. *)
Definition match_at (r : regex) (s : str) : option match_obj :=
  rmatch r s [] (fun t g => Some (MkMatch g (ngroups r) t)).

(** [match.group(n)], [None] when the group did not take part. *)
Fixpoint group (n : nat) (g : captures) : option str :=
  match g with
  | [] => None
  | (m, v) :: g' => if Nat.eqb m n then Some v else group n g'
  end.

(** [re.sub(r, repl, s)]: non-overlapping matches, leftmost first, each
    replaced by [repl match].  The patterns of this program begin with a
    literal character, so a match is never empty and [length s] steps
    are enough. *)
Fixpoint re_sub_fuel (fuel : nat) (r : regex) (repl : match_obj -> str)
  (s : str) : str :=
  match fuel, s with
  | _, [] => []
  | O, _ => s
  | S fuel', x :: s' =>
      match match_at r s with
      | Some m => repl m ++ re_sub_fuel fuel' r repl (m_rest m)
      | None => x :: re_sub_fuel fuel' r repl s'
      end
  end.

Definition re_sub (r : regex) (repl : match_obj -> str) (s : str) : str :=
  re_sub_fuel (length s) r repl s.

(** [re.findall(r, s)] for a pattern with one group: the text of group 1
    of every match, in order (the empty string when the group did not
    take part). *)
Fixpoint re_findall_fuel (fuel : nat) (r : regex) (s : str) : list str :=
  match fuel, s with
  | _, [] => []
  | O, _ => []
  | S fuel', x :: s' =>
      match match_at r s with
      | Some m =>
          match group 1 (m_caps m) with
          | Some v => v
          | None => []
          end :: re_findall_fuel fuel' r (m_rest m)
      | None => re_findall_fuel fuel' r s'
      end
  end.

Definition re_findall (r : regex) (s : str) : list str :=
  re_findall_fuel (length s) r s.

Infix "+++" := RSeq (right associativity, at level 60).

(** The pattern of [_find_env_vars], spaced out for reading:
    [\$ \{ ( [^}]+ ) (?: : - [^}]* )? \}]. *)
Definition pat_find : regex :=
  RChar "$" +++ RChar "{" +++ RGroup 1 (RPlusNot "}") +++
  ROpt (RChar ":" +++ RChar "-" +++ RStarNot "}") +++ RChar "}".

(** The first pattern of [_replace_env_vars], spaced out:
    [\$ \{ ( [^}]+ ) : - ( [^}]+ ) \}]. *)
Definition pat_default : regex :=
  RChar "$" +++ RChar "{" +++ RGroup 1 (RPlusNot "}") +++
  RChar ":" +++ RChar "-" +++ RGroup 2 (RPlusNot "}") +++ RChar "}".

(** The second pattern of [_replace_env_vars], spaced out:
    [\$ \{ ( [^}]+ ) \}]. *)
Definition pat_bare : regex :=
  RChar "$" +++ RChar "{" +++ RGroup 1 (RPlusNot "}") +++ RChar "}".

(** ** Python values *)

Unset Elimination Schemes.

Inductive value : Type :=
| VNone
| VBool (b : bool)
| VInt (z : Z)
| VStr (s : str)
| VList (l : list value)
| VDict (d : list (str * value)).

Set Elimination Schemes.

(** Exceptions.  [ValueError] is raised by the source with its message; the
    others come from the interpreter, the regex module, the YAML loader or
    the operating system. *)
Inductive exn : Type :=
| ValueError (msg : str)
| TypeError
| AttributeError
| OSError
| YAMLError.

Inductive result (A : Type) : Type :=
| Ok (a : A)
| Raise (e : exn).

Arguments Ok {A} a.
Arguments Raise {A} e.

Definition bind (A B : Type) (m : result A) (f : A -> result B) : result B :=
  match m with
  | Ok a => f a
  | Raise e => Raise e
  end.

Notation "x <- m ;; k" := (bind m (fun x => k))
  (at level 61, m at next level, right associativity).
Notation "' p <- m ;; k" := (bind m (fun x => match x with p => k end))
  (at level 61, p pattern, m at next level, right associativity).

(** A [for] loop whose body may raise: the state is threaded from left to
    right and the first exception ends the loop. *)
Fixpoint for_each (A S : Type) (xs : list A) (body : S -> A -> result S)
  (st : S) : result S :=
  match xs with
  | [] => Ok st
  | x :: xs' => st' <- body st x ;; for_each xs' body st'
  end.

(** ** Dictionaries and sets

    A dict keeps its keys in insertion order; assigning to a key that is
    present replaces the value in place. *)

Definition dict (V : Type) : Type := list (str * V).

Fixpoint dict_get (V : Type) (k : str) (d : dict V) : option V :=
  match d with
  | [] => None
  | (k', v) :: d' => if str_eqb k' k then Some v else dict_get k d'
  end.

Definition dict_mem (V : Type) (k : str) (d : dict V) : bool :=
  match dict_get k d with
  | Some _ => true
  | None => false
  end.

Fixpoint dict_set (V : Type) (d : dict V) (k : str) (v : V) : dict V :=
  match d with
  | [] => [(k, v)]
  | (k', v') :: d' =>
      if str_eqb k' k then (k', v) :: d' else (k', v') :: dict_set d' k v
  end.

Definition dict_keys (V : Type) (d : dict V) : list str := map fst d.

(** The keys of a dict are pairwise distinct. *)
Fixpoint mem_str (k : str) (l : list str) : bool :=
  match l with
  | [] => false
  | x :: l' => str_eqb x k || mem_str k l'
  end.

Fixpoint distinct (l : list str) : bool :=
  match l with
  | [] => true
  | x :: l' => negb (mem_str x l') && distinct l'
  end.

(** A set of strings, kept as the list of its elements in the order of
    first insertion.  A [for] loop over a set visits the elements in an
    order of CPython's own (hash order); that order is a parameter,
    [set_order], of the one function that has such a loop. *)
Definition set_add (s : list str) (x : str) : list str :=
  if mem_str x s then s else s ++ [x].

Definition set_update (s : list str) (xs : list str) : list str :=
  fold_left set_add xs s.

(** ** Built-in operations on values *)

(** Truth value of an object, as tested by [if x:] and [not x]. *)
Definition truthy (v : value) : bool :=
  match v with
  | VNone => false
  | VBool b => b
  | VInt z => negb (Z.eqb z 0)
  | VStr s => match s with [] => false | _ => true end
  | VList l => match l with [] => false | _ => true end
  | VDict d => match d with [] => false | _ => true end
  end.

Definition DQ : ascii := ascii_of_nat 34.
Definition SQ : ascii := ascii_of_nat 39.
Definition BS : ascii := ascii_of_nat 92.
Definition NL : ascii := ascii_of_nat 10.

Definition str_of_Z (z : Z) : str := txt (NilZero.string_of_int (Z.to_int z)).

Definition hex_digit (n : nat) : ascii :=
  nth n (txt "0123456789abcdef") "0".

(** [repr] of one character of a string whose quote is [q]: the quote
    and the backslash are escaped, tab, newline and return have their
    letters, the other code points that do not print (below 32, 127 to
    160, 173) are written in hexadecimal. *)
Definition repr_ch (q c : ascii) : str :=
  let n := nat_of_ascii c in
  if ch_eqb c q || ch_eqb c BS then [BS; c]
  else if Nat.eqb n 9 then [BS; "t"]
  else if Nat.eqb n 10 then [BS; "n"]
  else if Nat.eqb n 13 then [BS; "r"]
  else if (n <? 32)%nat || ((127 <=? n)%nat && (n <=? 160)%nat)
          || Nat.eqb n 173
       then [BS; "x"; hex_digit (n / 16); hex_digit (n mod 16)]
  else [c].

(** [repr(s)]: single quotes, unless [s] has a single quote and no double
    quote. *)
Definition repr_str (s : str) : str :=
  let q := if contains_ch SQ s && negb (contains_ch DQ s) then DQ else SQ in
  q :: flat_map (repr_ch q) s ++ [q].

Definition bool_str (b : bool) : str :=
  if b then txt "True" else txt "False".

(** [repr(v)] *)
Fixpoint py_repr (v : value) : str :=
  match v with
  | VNone => txt "None"
  | VBool b => bool_str b
  | VInt z => str_of_Z z
  | VStr s => repr_str s
  | VList l => txt "[" ++ join (txt ", ") (map py_repr l) ++ txt "]"
  | VDict d =>
      txt "{" ++
      join (txt ", ")
        (map (fun kv => repr_str (fst kv) ++ txt ": " ++ py_repr (snd kv)) d)
      ++ txt "}"
  end.

(** [str(v)], which is also what an f-string field [{v}] prints. *)
Definition py_str (v : value) : str :=
  match v with
  | VStr s => s
  | _ => py_repr v
  end.

(** [d.get(key, default)]; an object that is not a dict has no [get]. *)
Definition py_get (d : value) (key : str) (default : value) : result value :=
  match d with
  | VDict kvs =>
      Ok (match dict_get key kvs with Some v => v | None => default end)
  | _ => Raise AttributeError
  end.

(** [d.items()] *)
Definition py_items (d : value) : result (list (str * value)) :=
  match d with
  | VDict kvs => Ok kvs
  | _ => Raise AttributeError
  end.

(** The elements that [for x in v] visits. *)
Definition py_iter (v : value) : result (list value) :=
  match v with
  | VList l => Ok l
  | VDict kvs => Ok (map (fun kv => VStr (fst kv)) kvs)
  | VStr s => Ok (map (fun c => VStr [c]) s)
  | _ => Raise TypeError
  end.

Definition is_dict (v : value) : bool :=
  match v with VDict _ => true | _ => false end.

Definition is_str (v : value) : bool :=
  match v with VStr _ => true | _ => false end.

Definition is_list (v : value) : bool :=
  match v with VList _ => true | _ => false end.

(** ** The converter object *)

Record converter : Type := MkConverter {
  variables : dict str;
  networks : list value;
  volumes : dict str
}.

(** [__init__] *)
Definition init : converter := MkConverter [] [] [].

Definition set_variables (self : converter) (vs : dict str) : converter :=
  MkConverter vs (networks self) (volumes self).

Definition set_volumes (self : converter) (vs : dict str) : converter :=
  MkConverter (variables self) (networks self) vs.

Definition set_networks (self : converter) (ns : list value) : converter :=
  MkConverter (variables self) ns (volumes self).

(** *** [_process_volumes] *)

Definition is_external (volume_config : value) : bool :=
  match volume_config with
  | VDict kvs =>
      match dict_get (txt "external") kvs with
      | Some v => truthy v
      | None => false
      end
  | _ => false
  end.

Definition volume_target (volume_name : str) (volume_config : value) : str :=
  if is_external volume_config then volume_name
  else txt "${STACK_PATH}/" ++ volume_name.

Definition _process_volumes (self : converter) (vols : value)
  (project_name : value) : result converter :=
  items <- py_items vols ;;
  Ok (set_volumes self
        (fold_left
           (fun tbl kv => dict_set tbl (fst kv) (volume_target (fst kv) (snd kv)))
           items (volumes self))).

(** *** [_find_env_vars] and [_suggest_variable_value] *)

(** [set(re.findall(...))] on a string. *)
Definition find_env_vars_str (text : str) : list str :=
  set_update [] (re_findall pat_find text).

(** The regex module refuses an argument that is not a string. *)
Definition _find_env_vars (text : value) : result (list str) :=
  match text with
  | VStr s => Ok (find_env_vars_str s)
  | _ => Raise TypeError
  end.

Definition quoted (s : str) : str := DQ :: s ++ [DQ].

Definition suggestions : dict str :=
  [ (txt "IMMICH_VERSION", quoted (txt "v1.125.7"));
    (txt "UPLOAD_LOCATION", quoted (txt "/main/immich"));
    (txt "DB_DATA_LOCATION", quoted (txt "${STACK_PATH}/pgdata"));
    (txt "STACK_PATH", quoted (txt "/etc/stacks/immich"));
    (txt "DB_PASSWORD", txt "config.sops.secrets.dbPassword.path");
    (txt "DB_USERNAME", quoted (txt "postgres"));
    (txt "DB_DATABASE_NAME", quoted (txt "immich")) ].

Definition _suggest_variable_value (var_name : str) : str :=
  match dict_get var_name suggestions with
  | Some v => v
  | None => quoted (lower var_name)
  end.

(** *** [_extract_variables] *)

(** The names found in the string items of a volume list. *)
Definition scan_volumes (env_vars : list str) (vols : list value) : list str :=
  fold_left
    (fun acc volume =>
       match volume with
       | VStr s => set_update acc (find_env_vars_str s)
       | _ => acc
       end)
    vols env_vars.

(** The names found in the string values of an environment dict. *)
Definition scan_environment (env_vars : list str) (environment : value)
  : list str :=
  match environment with
  | VDict kvs =>
      fold_left
        (fun acc kv =>
           match snd kv with
           | VStr s => set_update acc (find_env_vars_str s)
           | _ => acc
           end)
        kvs env_vars
  | _ => env_vars
  end.

(** The body of the loop over the services. *)
Definition scan_service (env_vars : list str) (service : str * value)
  : result (list str) :=
  let service_config := snd service in
  image <- py_get service_config (txt "image") (VStr []) ;;
  found <- _find_env_vars image ;;
  let env_vars := set_update env_vars found in
  vols <- py_get service_config (txt "volumes") (VList []) ;;
  vols <- py_iter vols ;;
  let env_vars := scan_volumes env_vars vols in
  environment <- py_get service_config (txt "environment") (VDict []) ;;
  Ok (scan_environment env_vars environment).

(** The second loop: a name that is not yet a key of the table gets its
    suggested value.  [names] is the set in the order of iteration. *)
Definition define_variables (names : list str) (tbl : dict str) : dict str :=
  fold_left
    (fun tbl var =>
       if dict_mem var tbl then tbl
       else dict_set tbl var (_suggest_variable_value var))
    names tbl.

Definition collect_env_vars (services : value) : result (list str) :=
  items <- py_items services ;;
  for_each items scan_service [].

(** [set_order] gives the order in which the loop [for var in env_vars]
    visits the set. *)
Definition _extract_variables (set_order : list str -> list str)
  (self : converter) (services : value) : result converter :=
  env_vars <- collect_env_vars services ;;
  Ok (set_variables self
        (define_variables (set_order env_vars) (variables self))).

(** *** [_extract_dependencies] *)

Definition deps_of (deps : value) : list value :=
  match deps with
  | VDict kvs => map (fun kv => VStr (fst kv)) kvs
  | VList l => l
  | _ => []
  end.

Definition _extract_dependencies (services : value)
  : result (dict (list value)) :=
  items <- py_items services ;;
  for_each items
    (fun dependencies service =>
       deps <- py_get (snd service) (txt "depends_on") (VList []) ;;
       Ok (dict_set dependencies (fst service) (deps_of deps)))
    [].

(** *** [_replace_env_vars] *)

(** The inner function [replace_var]. *)
Definition replace_var (tbl : dict str) (m : match_obj) : str :=
  let var_name :=
    match group 1 (m_caps m) with Some v => v | None => [] end in
  let default_value :=
    if (1 <? m_ngroups m)%nat then group 2 (m_caps m) else None in
  if dict_mem var_name tbl then txt "${" ++ var_name ++ txt "}"
  else match default_value with
       | Some (c :: d) => c :: d
       | _ => txt "${" ++ var_name ++ txt "}"
       end.

Definition _replace_env_vars (tbl : dict str) (text : str) : str :=
  let text := re_sub pat_default (replace_var tbl) text in
  let text := re_sub pat_bare (replace_var tbl) text in
  text.

(** *** [_convert_volume] *)

(** The loop over the volume table: the first name [n] with
    [volume.startswith(n + ':')] has its first occurrence replaced. *)
Fixpoint subst_volume (tbl : dict str) (volume : str) : str :=
  match tbl with
  | [] => volume
  | (vol_name, target) :: tbl' =>
      if startswith (vol_name ++ txt ":") volume
      then replace_first (vol_name ++ txt ":") (target ++ txt ":") volume
      else subst_volume tbl' volume
  end.

(** The test that guards [volume += ':z']. *)
Definition needs_relabel (volume : str) : bool :=
  contains_ch ":" volume
  && negb (endswith (txt ":ro") volume)
  && negb (endswith (txt ":z") volume)
  && match split_ch ":" volume with
     | [source; _] =>
         negb (startswith (txt "/dev") source)
         && negb (startswith (txt "/etc") source)
     | _ => false
     end.

Definition convert_volume_str (self : converter) (volume : str) : str :=
  let volume := subst_volume (volumes self) volume in
  let volume := _replace_env_vars (variables self) volume in
  if needs_relabel volume then volume ++ txt ":z" else volume.

Definition _convert_volume (self : converter) (volume : value) : result str :=
  match volume with
  | VDict _ => Ok (py_str volume)
  | VStr s => Ok (convert_volume_str self s)
  | _ =>
      match volumes self with
      | [] => Raise TypeError
      | _ :: _ => Raise AttributeError
      end
  end.

(** *** [_generate_container_config] *)

Definition indent (n : nat) (s : str) : str := repeat " " n ++ s.

(** The text printed for one element of [ports]. *)
Definition port_text (port : value) : str :=
  match port with
  | VStr p =>
      if contains_ch ":" p then
        if negb (startswith (txt "127.0.0.1:") p)
           && negb (startswith (txt "0.0.0.0:") p)
        then txt "127.0.0.1:" ++ p
        else p
      else p
  | _ => py_str port
  end.

Definition port_line (port : value) : str :=
  indent 14 (quoted (port_text port)).

(** The line printed for one item of an [environment] dict. *)
Definition environment_line (tbl : dict str) (kv : str * value) : str :=
  match snd kv with
  | VStr s =>
      indent 14 (fst kv ++ txt " = " ++ quoted (_replace_env_vars tbl s)
                 ++ txt ";")
  | v => indent 14 (fst kv ++ txt " = " ++ quoted (py_str v) ++ txt ";")
  end.

(** [' '.join(xs)] accepts strings only. *)
Fixpoint all_strs (xs : list value) : result (list str) :=
  match xs with
  | [] => Ok []
  | VStr s :: xs' => ss <- all_strs xs' ;; Ok (s :: ss)
  | _ :: _ => Raise TypeError
  end.

Definition image_lines (self : converter) (service_config : value)
  : result (list str) :=
  image <- py_get service_config (txt "image") (VStr []) ;;
  if truthy image then
    match image with
    | VStr s =>
        Ok [indent 12 (txt "image = "
                       ++ quoted (_replace_env_vars (variables self) s)
                       ++ txt ";")]
    | _ => Raise TypeError
    end
  else Ok [].

Definition ports_lines (service_config : value) : result (list str) :=
  ports <- py_get service_config (txt "ports") (VList []) ;;
  if truthy ports then
    ports <- py_iter ports ;;
    Ok ([indent 12 (txt "publishPorts = [")] ++ map port_line ports
        ++ [indent 12 (txt "];")])
  else Ok [].

Definition volumes_lines (self : converter) (service_config : value)
  : result (list str) :=
  vols <- py_get service_config (txt "volumes") (VList []) ;;
  if truthy vols then
    vols <- py_iter vols ;;
    volume_lines <-
      for_each vols
        (fun acc volume =>
           volume_str <- _convert_volume self volume ;;
           Ok (acc ++ [indent 14 (quoted volume_str)]))
        [indent 12 (txt "volumes = [")] ;;
    Ok (volume_lines ++ [indent 12 (txt "];")])
  else Ok [].

Definition env_file_lines (service_config : value) : result (list str) :=
  env_file <- py_get service_config (txt "env_file") VNone ;;
  if truthy env_file then
    Ok [indent 12
          (txt "environmentFiles = [ config.sops.secrets.envFile.path ];")]
  else Ok [].

Definition environment_lines (self : converter) (service_config : value)
  : result (list str) :=
  environment <- py_get service_config (txt "environment") (VDict []) ;;
  if truthy environment then
    match environment with
    | VDict kvs =>
        Ok ([indent 12 (txt "environments = {")]
            ++ map (environment_line (variables self)) kvs
            ++ [indent 12 (txt "};")])
    | _ => Ok []
    end
  else Ok [].

Definition healthcheck_lines (service_config : value) : result (list str) :=
  healthcheck <- py_get service_config (txt "healthcheck") (VDict []) ;;
  if truthy healthcheck then
    disable <- py_get healthcheck (txt "disable") VNone ;;
    if negb (truthy disable) then
      test <- py_get healthcheck (txt "test") VNone ;;
      if truthy test then
        test_text <-
          match test with
          | VList l => parts <- all_strs (tl l) ;; Ok (join (txt " ") parts)
          | _ => Ok (py_str test)
          end ;;
        Ok [indent 12 (txt "healthCmd = " ++ quoted test_text ++ txt ";")]
      else Ok []
    else Ok []
  else Ok [].

Definition label_lines : list str :=
  [ indent 12 (txt "labels = [");
    indent 14 (quoted (txt "wud.tag.include=^v\\d+\\.\\d+\\.\\d+$"));
    indent 12 (txt "];") ].

Definition restart_lines (service_config : value) : result (list str) :=
  restart <- py_get service_config (txt "restart") VNone ;;
  if truthy restart then
    Ok [ indent 10 (txt "serviceConfig = {");
         indent 12 (txt "Restart = " ++ quoted (py_str restart) ++ txt ";");
         indent 10 (txt "};") ]
  else Ok [].

Definition deps_lines (deps : list value) : list str :=
  match deps with
  | [] => []
  | _ :: _ =>
      let dep_services :=
        map (fun dep => indent 14 (quoted (py_str dep ++ txt ".service")))
          deps in
      [ indent 10 (txt "unitConfig = {");
        indent 12 (txt "After = [");
        join [NL] dep_services;
        indent 12 (txt "];");
        indent 12 (txt "Requires = [");
        join [NL] dep_services;
        indent 12 (txt "];");
        indent 10 (txt "};") ]
  end.

Definition _generate_container_config (self : converter) (service_name : str)
  (service_config : value) (deps : list value) (project_name : value)
  : result str :=
  image <- image_lines self service_config ;;
  ports <- ports_lines service_config ;;
  vols <- volumes_lines self service_config ;;
  env_file <- env_file_lines service_config ;;
  environment <- environment_lines self service_config ;;
  healthcheck <- healthcheck_lines service_config ;;
  restart <- restart_lines service_config ;;
  Ok (join [NL]
        ([ indent 8 (service_name ++ txt " = {");
           indent 10 (txt "containerConfig = {") ]
         ++ image ++ ports ++ vols ++ env_file ++ environment ++ healthcheck
         ++ [ indent 12 (txt "networks = [ networks." ++ py_str project_name
                         ++ txt ".ref ];") ]
         ++ label_lines
         ++ [ indent 10 (txt "};") ]
         ++ restart
         ++ deps_lines deps
         ++ [ indent 8 (txt "};"); [] ])).

(** *** [_generate_nix_config] *)

(** Equality of hashable objects, as a set uses it ([True == 1]). *)
Definition key_eqb (a b : value) : bool :=
  match a, b with
  | VNone, VNone => true
  | VBool x, VBool y => Bool.eqb x y
  | VInt x, VInt y => Z.eqb x y
  | VBool x, VInt y | VInt y, VBool x => Z.eqb y (if x then 1 else 0)
  | VStr x, VStr y => str_eqb x y
  | _, _ => false
  end.

(** [s.add(x)]; a list or a dict is not hashable. *)
Definition networks_add (s : list value) (x : value) : result (list value) :=
  match x with
  | VList _ | VDict _ => Raise TypeError
  | _ => Ok (if existsb (key_eqb x) s then s else s ++ [x])
  end.

Definition let_bindings (self : converter) (project_name : value) : list str :=
  map (fun kv => indent 6 (fst kv ++ txt " = " ++ snd kv ++ txt ";"))
    (variables self)
  ++ [ indent 6 (txt "STACK_PATH = "
                 ++ quoted (txt "/etc/stacks/" ++ py_str project_name)
                 ++ txt ";");
       indent 6 (txt "inherit (config.virtualisation.quadlet) networks;") ].

Definition _generate_nix_config (self : converter) (services : value)
  (project_name : value) (dependencies : dict (list value))
  : result (str * converter) :=
  let bindings := let_bindings self project_name in
  nets <- networks_add (networks self) project_name ;;
  let self := set_networks self nets in
  items <- py_items services ;;
  containers <-
    for_each items
      (fun acc service =>
         let deps :=
           match dict_get (fst service) dependencies with
           | Some d => d
           | None => []
           end in
         c <- _generate_container_config self (fst service) (snd service)
                deps project_name ;;
         Ok (acc ++ [c]))
      [] ;;
  Ok (join [NL]
        [ indent 2 (txt "virtualisation.quadlet =");
          indent 4 (txt "let");
          join [NL] bindings;
          indent 4 (txt "in");
          indent 4 (txt "{");
          indent 6 (txt "networks." ++ py_str project_name
                    ++ txt ".networkConfig.driver = "
                    ++ quoted (txt "bridge") ++ txt ";");
          indent 6 (txt "containers = {");
          join [NL] containers;
          indent 6 (txt "};");
          indent 4 (txt "};") ],
      self).

(** ** Files and the console

    The file system maps a path to a file with its text or to a directory;
    a file of the model is one that can be read.  The console is the text
    printed so far on the two streams.  A command
    of type [io A] runs in a world and leaves a world, also when it raises.

    What the program gets from outside its source is gathered in a
    [platform]: the parser of the command line, the YAML loader, the path
    library, the texts of the interpreter's exceptions, the order in which
    a set is iterated, and what the operating system does when a file is
    opened for writing and written. *)

Inductive node : Type :=
| File (content : str)
| Dir.

Record world : Type := MkWorld {
  files : dict node;
  stdout : str;
  stderr : str
}.

Definition io (A : Type) : Type := world -> result A * world.

Definition io_bind (A B : Type) (m : io A) (f : A -> io B) : io B :=
  fun w =>
    match m w with
    | (Ok a, w') => f a w'
    | (Raise e, w') => (Raise e, w')
    end.

Definition lift (A : Type) (r : result A) : io A := fun w => (r, w).

Notation "x <~ m ;; k" := (io_bind m (fun x => k))
  (at level 61, m at next level, right associativity).

Record arguments : Type := MkArgs {
  compose_file : str;
  output : option str;
  name : option str
}.

(** What [parser.parse_args()] does with a command line: it returns the
    arguments, or it prints the help on the standard stream and exits
    with 0, or it prints the usage and an error on the error stream and
    exits with 2. *)
Inductive parsed : Type :=
| Parsed (args : arguments)
| Help (text : str)
| Refused (text : str).

Record platform : Type := MkPlatform {
  (** [parser.parse_args()] on the words of the command line *)
  parse_args : list str -> parsed;
  (** [yaml.safe_load] on the text of a file *)
  safe_load : str -> result value;
  (** [Path(p).parent.name] *)
  parent_name : str -> str;
  (** [str(e)] for an exception that the source does not raise itself *)
  exn_text : exn -> str;
  (** the order in which a [for] loop visits a set *)
  set_order : list str -> list str;
  (** the operating system lets the path be opened for writing *)
  may_open : str -> bool;
  (** the number of characters that a write can store before the device
      fails, [None] when it never fails *)
  room : option nat
}.

(** [Path(p).exists()] *)
Definition path_exists (p : str) (w : world) : bool := dict_mem p (files w).

(** [with open(p, 'r') as f], the text of the file. *)
Definition read_file (p : str) : io str :=
  fun w =>
    match dict_get p (files w) with
    | Some (File content) => (Ok content, w)
    | _ => (Raise OSError, w)
    end.

(** The world in which the file at [p] has the text [content]. *)
Definition set_file (w : world) (p : str) (content : str) : world :=
  MkWorld (dict_set (files w) p (File content)) (stdout w) (stderr w).

(** [open(p, 'w')]: refused on a directory and where the operating
    system says so, with the world as it was; otherwise the file is there
    and empty. *)
Definition open_write (pf : platform) (p : str) : io unit :=
  fun w =>
    match dict_get p (files w) with
    | Some Dir => (Raise OSError, w)
    | _ =>
        if may_open pf p then (Ok tt, set_file w p [])
        else (Raise OSError, w)
    end.

(** [f.write(data)] and the closing of the file: the whole text is
    stored, or the device fails and the file keeps what went through. *)
Definition write_text (pf : platform) (p : str) (data : str) : io unit :=
  fun w =>
    match room pf with
    | Some k =>
        if (k <? length data)%nat
        then (Raise OSError, set_file w p (firstn k data))
        else (Ok tt, set_file w p data)
    | None => (Ok tt, set_file w p data)
    end.

(** [with open(p, 'w') as f: f.write(data)] *)
Definition write_file (pf : platform) (p : str) (data : str) : io unit :=
  _ <~ open_write pf p ;;
  write_text pf p data.

(** [print(s)] *)
Definition print_out (s : str) : io unit :=
  fun w => (Ok tt, MkWorld (files w) (stdout w ++ s ++ [NL]) (stderr w)).

(** [print(s, file=sys.stderr)] *)
Definition print_err (s : str) : io unit :=
  fun w => (Ok tt, MkWorld (files w) (stdout w) (stderr w ++ s ++ [NL])).

(** [if x:] for an optional string argument. *)
Definition given (x : option str) : option str :=
  match x with
  | Some (c :: s) => Some (c :: s)
  | _ => None
  end.

(** *** [convert] *)

Definition convert (pf : platform) (self : converter) (compose_file : str)
  (output_file : option str) (project_name : option str)
  : io (str * converter) :=
  text <~ read_file compose_file ;;
  compose_data <~ lift (safe_load pf text) ;;
  if negb (truthy compose_data)
  then lift (Raise (ValueError (txt "Empty or invalid compose file")))
  else
    project_name <~
      lift match given project_name with
           | Some n => Ok (VStr n)
           | None =>
               py_get compose_data (txt "name")
                 (VStr (parent_name pf compose_file))
           end ;;
    services <~ lift (py_get compose_data (txt "services") (VDict [])) ;;
    vols <~ lift (py_get compose_data (txt "volumes") (VDict [])) ;;
    self <~ lift (_process_volumes self vols project_name) ;;
    self <~ lift (_extract_variables (set_order pf) self services) ;;
    dependencies <~ lift (_extract_dependencies services) ;;
    generated <~
      lift (_generate_nix_config self services project_name dependencies) ;;
    let nix_config := fst generated in
    match given output_file with
    | Some path =>
        _ <~ write_file pf path nix_config ;;
        lift (Ok generated)
    | None => lift (Ok generated)
    end.

(** *** [main] *)

Definition str_of_exn (pf : platform) (e : exn) : str :=
  match e with
  | ValueError msg => msg
  | _ => exn_text pf e
  end.

(** The body of the [try] block. *)
Definition main_try (pf : platform) (args : arguments) : io unit :=
  generated <~ convert pf init (compose_file args) (output args) (name args) ;;
  match given (output args) with
  | None => print_out (fst generated)
  | Some path =>
      print_out (txt "Converted " ++ compose_file args ++ txt " to " ++ path)
  end.

(** [main] from the test of the input path on: the exit status and the
    world that it leaves. *)
Definition main_parsed (pf : platform) (args : arguments) (w : world)
  : Z * world :=
  if negb (path_exists (compose_file args) w) then
    (1%Z,
     snd (print_err (txt "Error: " ++ compose_file args ++ txt " not found") w))
  else
    match main_try pf args w with
    | (Ok _, w') => (0%Z, w')
    | (Raise e, w') =>
        (1%Z, snd (print_err (txt "Error: " ++ str_of_exn pf e) w'))
    end.

(** [main] on the words of the command line. *)
Definition main (pf : platform) (argv : list str) (w : world) : Z * world :=
  match parse_args pf argv with
  | Parsed args => main_parsed pf args w
  | Help text => (0%Z, MkWorld (files w) (stdout w ++ text) (stderr w))
  | Refused text => (2%Z, MkWorld (files w) (stdout w) (stderr w ++ text))
  end.

(** ** Placeholder text, as the specification describes it

    A text is a sequence of literal pieces and references; a reference
    names a variable and may carry a default.  [rewrite_segment] is the
    rule of the specification for one reference. *)

Inductive segment : Type :=
| Lit (text : str)
| Ref (var : str) (default : option str).

Definition bare (var : str) : str := txt "${" ++ var ++ txt "}".

Definition render_segment (sg : segment) : str :=
  match sg with
  | Lit t => t
  | Ref var None => bare var
  | Ref var (Some d) => txt "${" ++ var ++ txt ":-" ++ d ++ txt "}"
  end.

Definition render (segs : list segment) : str := flat_map render_segment segs.

Definition rewrite_segment (tbl : dict str) (sg : segment) : str :=
  match sg with
  | Lit t => t
  | Ref var default =>
      if dict_mem var tbl then bare var
      else match default with
           | Some d => d
           | None => bare var
           end
  end.

Definition rewrite_spec (tbl : dict str) (segs : list segment) : str :=
  flat_map (rewrite_segment tbl) segs.

(** The separator [:-] occurs in [s]. *)
Fixpoint has_sep (s : str) : bool :=
  match s with
  | [] => false
  | x :: s' =>
      match s' with
      | y :: _ => (ch_eqb x ":" && ch_eqb y "-") || has_sep s'
      | [] => false
      end
  end.

(** No [$] of [s] is its last character or stands before an opening brace. *)
Fixpoint plain (s : str) : bool :=
  match s with
  | [] => true
  | x :: s' =>
      if ch_eqb x "$"
      then match s' with
           | y :: _ => negb (ch_eqb y "{") && plain s'
           | [] => false
           end
      else plain s'
  end.

Definition nonempty (s : str) : bool :=
  match s with [] => false | _ :: _ => true end.

(** A name or a default: not empty, no closing brace, no separator. *)
Definition wf_word (s : str) : bool :=
  nonempty s && negb (contains_ch "}" s) && negb (has_sep s).

Definition wf_segment (sg : segment) : bool :=
  match sg with
  | Lit t => plain t
  | Ref var None => wf_word var
  | Ref var (Some d) => wf_word var && wf_word d
  end.

Definition wf_text (segs : list segment) : bool := forallb wf_segment segs.

(** The defaults are plain text. *)
Definition plain_defaults (segs : list segment) : bool :=
  forallb
    (fun sg =>
       match sg with
       | Ref _ (Some d) => plain d
       | _ => true
       end)
    segs.

(** The segment that a reference becomes under the rule: a bare
    reference, or its default as literal text. *)
Definition settle (tbl : dict str) (sg : segment) : segment :=
  match sg with
  | Lit t => Lit t
  | Ref var default =>
      if dict_mem var tbl then Ref var None
      else match default with
           | Some d => Lit d
           | None => Ref var None
           end
  end.

(** A volume declaration is marked external: it is a mapping whose
    [external] entry is true. *)
Definition marked_external (volume_config : value) : Prop :=
  exists kvs v,
    volume_config = VDict kvs /\
    dict_get (txt "external") kvs = Some v /\
    truthy v = true.

(** ** Auxiliary notions for the proofs *)

(** One turn of the loop of [define_variables]. *)
Definition define_step (tbl : dict str) (var : str) : dict str :=
  if dict_mem var tbl then tbl
  else dict_set tbl var (_suggest_variable_value var).

(** The character [c] does not occur in [u]. *)
Definition no_ch (c : ascii) (u : str) : Prop := contains_ch c u = false.

(** The text begins with the separator [:-]. *)
Definition starts_sep (t : str) : bool :=
  match t with
  | x :: y :: _ => ch_eqb x ":" && ch_eqb y "-"
  | _ => false
  end.

(** What is left of the first pattern once the name that began at [s0] has
    been read up to [t]: the separator, the default, the closing brace. *)
Definition default_tail (s0 t : str) : option match_obj :=
  rmatch
    (RChar ":" +++ RChar "-" +++ RGroup 2 (RPlusNot "}") +++ RChar "}")
    t [(1, consumed s0 t)] (fun t' g => Some (MkMatch g 2 t')).

(** What is left of the second pattern: the closing brace. *)
Definition bare_tail (s0 t : str) : option match_obj :=
  rmatch (RChar "}") t [(1, consumed s0 t)] (fun t' g => Some (MkMatch g 1 t')).

(** ** Notions for the further properties *)

(** The string [s] is one that the discovery scans in the service [cfg]:
    its image, an item of its volume list or a value of its environment
    mapping. *)
Definition referenced_in (cfg : dict value) (s : str) : Prop :=
  dict_get (txt "image") cfg = Some (VStr s) \/
  (exists vols,
     dict_get (txt "volumes") cfg = Some (VList vols) /\ In (VStr s) vols) \/
  (exists env k,
     dict_get (txt "environment") cfg = Some (VDict env) /\
     In (k, VStr s) env).

(** The health check [hc] has a true [disable] entry. *)
Definition disabled (hc : dict value) : bool :=
  match dict_get (txt "disable") hc with
  | Some v => truthy v
  | None => false
  end.

(** The project name that [convert] settles on. *)
Definition effective_name (parent : str) (doc : dict value)
  (cli : option str) : value :=
  match given cli with
  | Some n => VStr n
  | None =>
      match dict_get (txt "name") doc with
      | Some v => v
      | None => VStr parent
      end
  end.

(** The dependency list that [_generate_nix_config] hands to a block. *)
Definition deps_for (dependencies : dict (list value)) (service_name : str)
  : list value :=
  match dict_get service_name dependencies with
  | Some d => d
  | None => []
  end.

(** The order [order] visits the elements of a set, and nothing else. *)
Definition visits_each (order : list str -> list str) : Prop :=
  forall l x, In x (order l) <-> In x l.

(** The stages of [convert] before the output is written have gone
    through, from the converter [self], and have given the document
    [text] with the converter [self']. *)
Definition stages (pf : platform) (self : converter) (cf : str)
  (n : option str) (w : world) (text : str) (self' : converter) : Prop :=
  exists t doc self1 self2 services vols dependencies,
    dict_get cf (files w) = Some (File t) /\
    safe_load pf t = Ok (VDict doc) /\
    doc <> [] /\
    py_get (VDict doc) (txt "services") (VDict []) = Ok services /\
    py_get (VDict doc) (txt "volumes") (VDict []) = Ok vols /\
    _process_volumes self vols (effective_name (parent_name pf cf) doc n)
      = Ok self1 /\
    _extract_variables (set_order pf) self1 services = Ok self2 /\
    _extract_dependencies services = Ok dependencies /\
    _generate_nix_config self2 services
      (effective_name (parent_name pf cf) doc n) dependencies
      = Ok (text, self').

(** The text that an environment value is printed as, in the words of
    the specification: a string after rewriting, [True], [False] and
    [None] for the booleans and null, the decimal digits for an integer,
    and what [repr] gives for a list or a mapping. *)
Definition printed_value (tbl : dict str) (v : value) : str :=
  match v with
  | VStr s => _replace_env_vars tbl s
  | VNone => txt "None"
  | VBool true => txt "True"
  | VBool false => txt "False"
  | VInt z => txt (NilZero.string_of_int (Z.to_int z))
  | VList _ | VDict _ => py_repr v
  end.

Unset Implicit Arguments.

(** * Facts about strings and dictionaries *)

Section StringFacts.

Lemma ch_eqb_true (a b : ascii) : ch_eqb a b = true <-> a = b.
Proof. apply Ascii.eqb_eq. Qed.

Lemma ch_eqb_false (a b : ascii) : ch_eqb a b = false <-> a <> b.
Proof. apply Ascii.eqb_neq. Qed.

Lemma ch_eqb_refl (a : ascii) : ch_eqb a a = true.
Proof. apply Ascii.eqb_refl. Qed.

Lemma str_eqb_true (a b : str) : str_eqb a b = true <-> a = b.
Proof.
  revert b; induction a as [|x a IH]; intros [|y b]; simpl; split;
    try discriminate; try reflexivity.
  - intros H. apply andb_true_iff in H as [Hx Hab].
    apply ch_eqb_true in Hx. apply IH in Hab. congruence.
  - intros H. injection H as -> ->.
    rewrite ch_eqb_refl. simpl. now apply IH.
Qed.

Lemma str_eqb_refl (a : str) : str_eqb a a = true.
Proof. now apply str_eqb_true. Qed.

Lemma str_eqb_false (a b : str) : str_eqb a b = false <-> a <> b.
Proof.
  split.
  - intros H E. apply str_eqb_true in E. congruence.
  - intros H. destruct (str_eqb a b) eqn:E; [|reflexivity].
    apply str_eqb_true in E. contradiction.
Qed.

Lemma startswith_app (p s : str) : startswith p (p ++ s) = true.
Proof.
  induction p as [|x p IH]; simpl; [reflexivity|].
  now rewrite ch_eqb_refl, IH.
Qed.

Lemma startswith_split (p s : str) :
  startswith p s = true -> s = p ++ skipn (length p) s.
Proof.
  revert s; induction p as [|x p IH]; intros s H; simpl in *.
  - reflexivity.
  - destruct s as [|y s]; [discriminate|].
    apply andb_true_iff in H as [Hx Hp].
    apply ch_eqb_true in Hx. subst y. simpl. f_equal. now apply IH.
Qed.

Lemma skipn_length_app (p s : str) : skipn (length p) (p ++ s) = s.
Proof. induction p; simpl; auto. Qed.

Lemma replace_first_prefix (old new s : str) :
  replace_first old new (old ++ s) = new ++ s.
Proof.
  destruct old as [|x old]; simpl.
  - destruct s; reflexivity.
  - rewrite ch_eqb_refl, startswith_app. simpl.
    now rewrite skipn_length_app.
Qed.

Lemma mem_str_In (k : str) (l : list str) : mem_str k l = true <-> In k l.
Proof.
  induction l as [|x l IH]; simpl.
  - split; [discriminate|tauto].
  - rewrite orb_true_iff, IH, str_eqb_true. tauto.
Qed.

Lemma app_suffix_neq (w z : str) : z <> [] -> w ++ z <> w.
Proof.
  intros Hz E. apply (f_equal (@length ascii)) in E.
  rewrite length_app in E. destruct z; [contradiction|]. simpl in E. lia.
Qed.

End StringFacts.

Section DictFacts.

Variable V : Type.

Lemma dict_get_set_same (d : dict V) (k : str) (v : V) :
  dict_get k (dict_set d k v) = Some v.
Proof.
  induction d as [|[k' v'] d IH]; simpl.
  - now rewrite str_eqb_refl.
  - destruct (str_eqb k' k) eqn:E; simpl; rewrite E; auto.
Qed.

Lemma dict_get_set_other (d : dict V) (k k' : str) (v : V) :
  k <> k' -> dict_get k' (dict_set d k v) = dict_get k' d.
Proof.
  intros Hne. induction d as [|[k0 v0] d IH]; simpl.
  - apply str_eqb_false in Hne. now rewrite Hne.
  - destruct (str_eqb k0 k) eqn:E; simpl.
    + apply str_eqb_true in E. subst k0.
      apply str_eqb_false in Hne. now rewrite Hne.
    + destruct (str_eqb k0 k'); auto.
Qed.

Lemma dict_get_none_keys (d : dict V) (k : str) :
  dict_get k d = None <-> mem_str k (dict_keys d) = false.
Proof.
  induction d as [|[k0 v0] d IH]; simpl.
  - tauto.
  - destruct (str_eqb k0 k); simpl; [split; discriminate | exact IH].
Qed.

Lemma dict_set_fresh (d : dict V) (k : str) (v : V) :
  mem_str k (dict_keys d) = false -> dict_set d k v = d ++ [(k, v)].
Proof.
  induction d as [|[k0 v0] d IH]; simpl; intros H.
  - reflexivity.
  - apply orb_false_iff in H as [H0 H1]. rewrite H0. f_equal. auto.
Qed.

Lemma dict_keys_set (d : dict V) (k : str) (v : V) :
  dict_keys (dict_set d k v) =
  if mem_str k (dict_keys d) then dict_keys d else dict_keys d ++ [k].
Proof.
  induction d as [|[k0 v0] d IH]; simpl.
  - reflexivity.
  - destruct (str_eqb k0 k) eqn:E; simpl.
    + reflexivity.
    + rewrite IH. now destruct (mem_str k (dict_keys d)).
Qed.

Lemma dict_get_In (d : dict V) (k : str) (v : V) :
  distinct (dict_keys d) = true -> In (k, v) d -> dict_get k d = Some v.
Proof.
  induction d as [|[k0 v0] d IH]; simpl; intros Hd Hin.
  - contradiction.
  - apply andb_true_iff in Hd as [Hk0 Hd].
    destruct Hin as [Heq | Hin].
    + injection Heq as -> ->. now rewrite str_eqb_refl.
    + destruct (str_eqb k0 k) eqn:E.
      * apply str_eqb_true in E. subst k0.
        apply negb_true_iff in Hk0.
        assert (In k (dict_keys d)) as Hk
          by (apply in_map_iff; exists (k, v); auto).
        apply mem_str_In in Hk. congruence.
      * auto.
Qed.

End DictFacts.

(** * The matcher *)

Section Matcher.

Lemma no_ch_cons (c x : ascii) (u : str) :
  no_ch c (x :: u) <-> ch_eqb x c = false /\ no_ch c u.
Proof. unfold no_ch; simpl. apply orb_false_iff. Qed.

Lemma no_ch_app (c : ascii) (u v : str) :
  no_ch c (u ++ v) <-> no_ch c u /\ no_ch c v.
Proof.
  unfold no_ch. induction u as [|x u IH]; simpl.
  - tauto.
  - rewrite !orb_false_iff, IH. tauto.
Qed.

(** Every answer of [star_not] is an answer of its continuation on a
    suffix, reached over characters other than [c]. *)
Lemma star_not_inv (A : Type) (c : ascii) (s : str) (k : str -> option A)
  (a : A) :
  star_not c s k = Some a ->
  exists u t, s = u ++ t /\ no_ch c u /\ k t = Some a.
Proof.
  induction s as [|x s IH]; simpl; intros H.
  - exists [], []. now repeat split.
  - destruct (ch_eqb x c) eqn:E.
    + exists [], (x :: s). now repeat split.
    + destruct (star_not c s k) as [b|] eqn:Es.
      * injection H as ->.
        destruct (IH eq_refl) as (u & t & -> & Hu & Hk).
        exists (x :: u), t. repeat split; auto.
        apply no_ch_cons. auto.
      * exists [], (x :: s). now repeat split.
Qed.

Lemma star_not_cons (A : Type) (c x : ascii) (s : str)
  (k : str -> option A) :
  star_not c (x :: s) k =
  if ch_eqb x c then k (x :: s)
  else match star_not c s k with
       | Some a => Some a
       | None => k (x :: s)
       end.
Proof. reflexivity. Qed.

(** The run stops at the first [c]; when the continuation accepts there,
    that is the answer. *)
Lemma star_not_longest (A : Type) (c : ascii) (u rest : str)
  (k : str -> option A) (a : A) :
  no_ch c u -> k (c :: rest) = Some a ->
  star_not c (u ++ c :: rest) k = Some a.
Proof.
  induction u as [|x u IH]; simpl; intros Hu Hk.
  - now rewrite ch_eqb_refl.
  - apply no_ch_cons in Hu as [Hx Hu]. rewrite Hx.
    now rewrite (IH Hu Hk).
Qed.

(** An answer found further to the right wins over the shorter runs. *)
Lemma star_not_commit (A : Type) (c : ascii) (u w : str)
  (k : str -> option A) (a : A) :
  no_ch c u -> star_not c w k = Some a -> star_not c (u ++ w) k = Some a.
Proof.
  induction u as [|x u IH]; simpl; intros Hu Hk.
  - exact Hk.
  - apply no_ch_cons in Hu as [Hx Hu]. rewrite Hx.
    now rewrite (IH Hu Hk).
Qed.

Lemma has_sep_cons (x : ascii) (u : str) :
  has_sep (x :: u) = starts_sep (x :: u) || has_sep u.
Proof. destruct u; reflexivity. Qed.

Lemma starts_sep_app_brace (u rest : str) :
  starts_sep u = false -> starts_sep (u ++ "}" :: rest) = false.
Proof.
  destruct u as [|x [|y u]]; simpl; intros H; auto.
  - now destruct rest.
  - now destruct (ch_eqb x ":").
Qed.

(** No separator before the closing brace: a continuation that asks for
    one fails at every point of the run. *)
Lemma star_not_no_sep (A : Type) (u rest : str) (k : str -> option A) :
  no_ch "}" u -> has_sep u = false ->
  (forall t, starts_sep t = false -> k t = None) ->
  star_not "}" (u ++ "}" :: rest) k = None.
Proof.
  intros Hu Hs Hk. induction u as [|x u IH]; simpl.
  - apply Hk. now apply (starts_sep_app_brace []).
  - apply no_ch_cons in Hu as [Hx Hu]. rewrite Hx.
    rewrite has_sep_cons in Hs. apply orb_false_iff in Hs as [Hs0 Hs].
    rewrite (IH Hu Hs).
    apply Hk. now apply (starts_sep_app_brace (x :: u)).
Qed.

Lemma consumed_app (u t : str) : consumed (u ++ t) t = u.
Proof.
  unfold consumed. rewrite length_app.
  replace (length u + length t - length t) with (length u) by lia.
  rewrite firstn_app, firstn_all, Nat.sub_diag. simpl. apply app_nil_r.
Qed.

(** A match leaves a suffix no longer than the text it started on. *)
Lemma star_not_le (A : Type) (c : ascii) (s : str) (k : str -> option A)
  (a : A) :
  star_not c s k = Some a ->
  exists t, length t <= length s /\ k t = Some a.
Proof.
  intros H. apply star_not_inv in H as (u & t & -> & _ & Hk).
  exists t. rewrite length_app. split; [lia | exact Hk].
Qed.

Lemma rmatch_le (A : Type) (r : regex) :
  forall (s : str) (g : captures) (k : str -> captures -> option A) (a : A),
    rmatch r s g k = Some a ->
    exists t g', length t <= length s /\ k t g' = Some a.
Proof.
  induction r as [c|c|c|r1 IH1 r2 IH2|r1 IH1|n r1 IH1]; simpl; intros s g k a H.
  - destruct s as [|x s]; [discriminate|].
    destruct (ch_eqb x c); [|discriminate].
    exists s, g. simpl. split; [lia | exact H].
  - destruct s as [|x s]; [discriminate|].
    destruct (ch_eqb x c); [discriminate|].
    apply star_not_le in H as (t & Hlen & Hk).
    exists t, g. simpl. split; [lia | exact Hk].
  - apply star_not_le in H as (t & Hlen & Hk). now exists t, g.
  - apply IH1 in H as (t1 & g1 & Hlen1 & H).
    apply IH2 in H as (t2 & g2 & Hlen2 & H).
    exists t2, g2. split; [lia | exact H].
  - destruct (rmatch r1 s g k) as [b|] eqn:E.
    + injection H as ->. now apply IH1 in E.
    + exists s, g. split; [lia | exact H].
  - apply IH1 in H as (t & g1 & Hlen & H). eauto.
Qed.

Lemma match_at_shorter (c : ascii) (r : regex) (s : str) (m : match_obj) :
  match_at (RChar c +++ r) s = Some m -> length (m_rest m) < length s.
Proof.
  unfold match_at. simpl. destruct s as [|x s]; [discriminate|].
  destruct (ch_eqb x c); [|discriminate].
  intros H. apply rmatch_le in H as (t & g' & Hlen & H).
  injection H as <-. simpl. lia.
Qed.

(** With a pattern that begins with a literal character the fuel of
    [re_sub] never runs out. *)
Lemma re_sub_fuel_enough (c : ascii) (r : regex) (repl : match_obj -> str) :
  forall (f1 f2 : nat) (s : str),
    length s <= f1 -> length s <= f2 ->
    re_sub_fuel f1 (RChar c +++ r) repl s =
    re_sub_fuel f2 (RChar c +++ r) repl s.
Proof.
  induction f1 as [|f1 IH]; intros f2 s H1 H2.
  - destruct s; [|simpl in H1; lia]. now destruct f2.
  - destruct s as [|x s]; [now destruct f2|].
    destruct f2 as [|f2]; [simpl in H2; lia|].
    simpl in H1, H2. cbn [re_sub_fuel].
    destruct (match_at (RChar c +++ r) (x :: s)) as [m|] eqn:E.
    + apply match_at_shorter in E. simpl in E.
      f_equal. apply IH; lia.
    + f_equal. apply IH; lia.
Qed.

(** The same for [re_findall]. *)
Lemma re_findall_fuel_enough (c : ascii) (r : regex) :
  forall (f1 f2 : nat) (s : str),
    length s <= f1 -> length s <= f2 ->
    re_findall_fuel f1 (RChar c +++ r) s =
    re_findall_fuel f2 (RChar c +++ r) s.
Proof.
  induction f1 as [|f1 IH]; intros f2 s H1 H2.
  - destruct s; [|simpl in H1; lia]. now destruct f2.
  - destruct s as [|x s]; [now destruct f2|].
    destruct f2 as [|f2]; [simpl in H2; lia|].
    simpl in H1, H2. cbn [re_findall_fuel].
    destruct (match_at (RChar c +++ r) (x :: s)) as [m|] eqn:E.
    + apply match_at_shorter in E. simpl in E.
      f_equal. apply IH; lia.
    + apply IH; lia.
Qed.

Lemma re_sub_nil (r : regex) (repl : match_obj -> str) :
  re_sub r repl [] = [].
Proof. reflexivity. Qed.

Lemma re_sub_miss (r : regex) (repl : match_obj -> str) (x : ascii)
  (s : str) :
  match_at r (x :: s) = None -> re_sub r repl (x :: s) = x :: re_sub r repl s.
Proof. unfold re_sub. simpl. now intros ->. Qed.

Lemma re_sub_hit (c : ascii) (r : regex) (repl : match_obj -> str)
  (s : str) (m : match_obj) :
  match_at (RChar c +++ r) s = Some m ->
  re_sub (RChar c +++ r) repl s =
  repl m ++ re_sub (RChar c +++ r) repl (m_rest m).
Proof.
  intros E. pose proof (match_at_shorter _ _ _ _ E) as Hlen.
  unfold re_sub. destruct s as [|x s]; [simpl in Hlen; lia|].
  cbn [re_sub_fuel length]. rewrite E. f_equal.
  apply re_sub_fuel_enough; simpl in Hlen; lia.
Qed.

End Matcher.

(** * The patterns of the rewriter *)

Section Patterns.

Lemma match_default_unfold (x : ascii) (s : str) :
  match_at pat_default ("$" :: "{" :: x :: s) =
  if ch_eqb x "}" then None else star_not "}" s (default_tail (x :: s)).
Proof. reflexivity. Qed.

Lemma match_bare_unfold (x : ascii) (s : str) :
  match_at pat_bare ("$" :: "{" :: x :: s) =
  if ch_eqb x "}" then None else star_not "}" s (bare_tail (x :: s)).
Proof. reflexivity. Qed.

Lemma sub_default_hit (repl : match_obj -> str) (s : str) (m : match_obj) :
  match_at pat_default s = Some m ->
  re_sub pat_default repl s = repl m ++ re_sub pat_default repl (m_rest m).
Proof. apply re_sub_hit. Qed.

Lemma match_default_head (x : ascii) (s : str) :
  ch_eqb x "$" = false -> match_at pat_default (x :: s) = None.
Proof. unfold match_at. simpl. now intros ->. Qed.

Lemma match_default_dollar (y : ascii) (s : str) :
  ch_eqb y "{" = false -> match_at pat_default ("$" :: y :: s) = None.
Proof. unfold match_at. simpl. now intros ->. Qed.

Lemma default_tail_no_sep (s0 t : str) :
  starts_sep t = false -> default_tail s0 t = None.
Proof.
  unfold default_tail. destruct t as [|x [|y t]]; simpl; intros H.
  - reflexivity.
  - now destruct (ch_eqb x ":").
  - destruct (ch_eqb x ":"); [|reflexivity].
    simpl in H. now rewrite H.
Qed.

(** A brace group without separator is no reference with default. *)
Lemma match_default_no_sep (u rest : str) :
  no_ch "}" u -> has_sep u = false ->
  match_at pat_default ("$" :: "{" :: u ++ "}" :: rest) = None.
Proof.
  intros Hu Hs. destruct u as [|x u].
  - reflexivity.
  - cbn [app]. rewrite match_default_unfold.
    apply no_ch_cons in Hu as [Hx Hu]. rewrite Hx.
    rewrite has_sep_cons in Hs. apply orb_false_iff in Hs as [_ Hs].
    apply star_not_no_sep; auto.
    intros t Ht. now apply default_tail_no_sep.
Qed.

Lemma wf_word_inv (w : str) :
  wf_word w = true ->
  exists x u, w = x :: u /\ no_ch "}" (x :: u) /\ has_sep (x :: u) = false.
Proof.
  unfold wf_word. intros H.
  apply andb_true_iff in H as [H Hs]. apply andb_true_iff in H as [Hn Hb].
  destruct w as [|x u]; [discriminate|].
  exists x, u. repeat split.
  - now apply negb_true_iff in Hb.
  - now apply negb_true_iff in Hs.
Qed.

(** A well-formed reference with default is matched whole; group 1 is the
    name and group 2 the default. *)
Lemma match_default_ref (var d rest : str) :
  wf_word var = true -> wf_word d = true ->
  match_at pat_default (txt "${" ++ var ++ txt ":-" ++ d ++ "}" :: rest) =
  Some (MkMatch [(2, d); (1, var)] 2 rest).
Proof.
  intros Hv Hd.
  apply wf_word_inv in Hv as (x & u & -> & Hu & _).
  apply wf_word_inv in Hd as (y & v & -> & Hv & Hs).
  apply no_ch_cons in Hu as [Hx Hu].
  change (txt "${" ++ (x :: u) ++ txt ":-" ++ (y :: v) ++ "}" :: rest)
    with ("$" :: "{" :: x :: u ++ ":" :: "-" :: y :: v ++ "}" :: rest).
  rewrite match_default_unfold, Hx.
  apply star_not_commit; [exact Hu|].
  rewrite star_not_cons. change (ch_eqb ":" "}") with false. cbv iota.
  assert (star_not "}" ("-" :: y :: v ++ "}" :: rest)
            (default_tail (x :: u ++ ":" :: "-" :: y :: v ++ "}" :: rest))
          = None) as ->.
  { apply star_not_no_sep with (u := "-" :: y :: v).
    - apply no_ch_cons. split; [reflexivity | exact Hv].
    - rewrite has_sep_cons. apply orb_false_iff. split; [reflexivity|exact Hs].
    - intros t Ht. now apply default_tail_no_sep. }
  unfold default_tail. cbn [rmatch].
  change (ch_eqb ":" ":") with true. change (ch_eqb "-" "-") with true.
  cbv iota.
  apply no_ch_cons in Hv as [Hy Hv]. rewrite Hy.
  apply star_not_longest; [exact Hv|].
  change (ch_eqb "}" "}") with true. cbv iota.
  pose proof (consumed_app (y :: v) ("}" :: rest)) as E2.
  pose proof (consumed_app (x :: u) (":" :: "-" :: y :: v ++ "}" :: rest))
    as E1.
  cbn [app] in E1, E2. now rewrite E1, E2.
Qed.

(** What the first pattern matches is a brace group with a separator, a
    non-empty name before it and a non-empty default after it. *)
Lemma match_default_inv (s : str) (m : match_obj) :
  match_at pat_default s = Some m ->
  exists var d,
    nonempty var = true /\ nonempty d = true /\
    no_ch "}" var /\ no_ch "}" d /\
    s = txt "${" ++ var ++ txt ":-" ++ d ++ "}" :: m_rest m /\
    m = MkMatch [(2, d); (1, var)] 2 (m_rest m).
Proof.
  destruct s as [|a [|b [|x s]]]; try discriminate.
  - unfold match_at; simpl. now destruct (ch_eqb a "$").
  - unfold match_at; simpl.
    now destruct (ch_eqb a "$"); [destruct (ch_eqb b "{")|].
  - destruct (ch_eqb a "$") eqn:Ea.
    2:{ unfold match_at; simpl. now rewrite Ea. }
    destruct (ch_eqb b "{") eqn:Eb.
    2:{ unfold match_at; simpl. now rewrite Ea, Eb. }
    apply ch_eqb_true in Ea, Eb. subst a b.
    rewrite match_default_unfold.
    destruct (ch_eqb x "}") eqn:Ex; [discriminate|].
    intros H. apply star_not_inv in H as (u & t & -> & Hu & H).
    unfold default_tail in H. cbn [rmatch] in H.
    destruct t as [|c1 t]; [discriminate|].
    destruct (ch_eqb c1 ":") eqn:E1; [|discriminate].
    destruct t as [|c2 t]; [discriminate|].
    destruct (ch_eqb c2 "-") eqn:E2; [|discriminate].
    destruct t as [|y t]; [discriminate|].
    destruct (ch_eqb y "}") eqn:Ey; [discriminate|].
    apply ch_eqb_true in E1, E2. subst c1 c2.
    apply star_not_inv in H as (v & t' & -> & Hv & H).
    destruct t' as [|c3 rest]; [discriminate|].
    destruct (ch_eqb c3 "}") eqn:E3; [|discriminate].
    apply ch_eqb_true in E3. subst c3.
    pose proof (consumed_app (y :: v) ("}" :: rest)) as Ed.
    pose proof (consumed_app (x :: u) (":" :: "-" :: y :: v ++ "}" :: rest))
      as Ev.
    cbn [app] in Ed, Ev. rewrite Ed, Ev in H.
    injection H as <-. cbn [m_rest].
    exists (x :: u), (y :: v).
    split; [reflexivity|]. split; [reflexivity|].
    split; [apply no_ch_cons; now split|].
    split; [apply no_ch_cons; now split|].
    split; reflexivity.
Qed.

End Patterns.

(** * The placeholder rewriter *)

Section Rewriter.

Variable tbl : dict str.

Let repl := replace_var tbl.

(** Plain text goes through the first pass as it is. *)
Lemma sub_default_plain (l rest : str) :
  plain l = true ->
  re_sub pat_default repl (l ++ rest) = l ++ re_sub pat_default repl rest.
Proof.
  induction l as [|x l IH]; intros Hp.
  - reflexivity.
  - cbn [app]. simpl in Hp. destruct (ch_eqb x "$") eqn:Ex.
    + apply ch_eqb_true in Ex. subst x.
      destruct l as [|y l]; [discriminate|].
      apply andb_true_iff in Hp as [Hy Hp]. apply negb_true_iff in Hy.
      rewrite re_sub_miss by (cbn [app]; now apply match_default_dollar).
      f_equal. now apply IH.
    + rewrite re_sub_miss by now apply match_default_head.
      f_equal. now apply IH.
Qed.

(** So does text up to a closing brace that has no separator in it. *)
Lemma sub_default_group (u rest : str) :
  no_ch "}" u -> has_sep u = false ->
  re_sub pat_default repl (u ++ "}" :: rest) =
  u ++ "}" :: re_sub pat_default repl rest.
Proof.
  induction u as [|x u IH]; intros Hu Hs.
  - cbn [app]. now rewrite re_sub_miss by now apply match_default_head.
  - apply no_ch_cons in Hu as [Hx Hu].
    rewrite has_sep_cons in Hs. apply orb_false_iff in Hs as [Hs0 Hs].
    cbn [app]. rewrite re_sub_miss; [f_equal; now apply IH|].
    destruct (ch_eqb x "$") eqn:Ex; [|now apply match_default_head].
    apply ch_eqb_true in Ex. subst x.
    destruct u as [|y u]; [now apply match_default_dollar|].
    cbn [app]. destruct (ch_eqb y "{") eqn:Ey; [|now apply match_default_dollar].
    apply ch_eqb_true in Ey. subst y.
    apply no_ch_cons in Hu as [_ Hu].
    rewrite has_sep_cons in Hs. apply orb_false_iff in Hs as [_ Hs].
    now apply match_default_no_sep.
Qed.

Lemma replace_var_default (var d rest : str) :
  nonempty d = true ->
  repl (MkMatch [(2, d); (1, var)] 2 rest) =
  rewrite_segment tbl (Ref var (Some d)).
Proof.
  intros Hd. unfold repl, replace_var. simpl.
  destruct (dict_mem var tbl); [reflexivity|].
  now destruct d.
Qed.

(** A well-formed reference with default is replaced as the rule says. *)
Lemma sub_default_ref (var d rest : str) :
  wf_word var = true -> wf_word d = true ->
  re_sub pat_default repl (txt "${" ++ var ++ txt ":-" ++ d ++ "}" :: rest) =
  rewrite_segment tbl (Ref var (Some d)) ++ re_sub pat_default repl rest.
Proof.
  intros Hv Hd.
  rewrite (sub_default_hit repl _ _ (match_default_ref var d rest Hv Hd)).
  rewrite replace_var_default; [reflexivity|].
  unfold wf_word in Hd. now destruct d.
Qed.

(** What the second pattern matches is put back unchanged. *)
Lemma match_bare_inv (s : str) (m : match_obj) :
  match_at pat_bare s = Some m -> repl m ++ m_rest m = s.
Proof.
  destruct s as [|a [|b [|x s]]]; try discriminate.
  - unfold match_at; simpl. now destruct (ch_eqb a "$").
  - unfold match_at; simpl.
    now destruct (ch_eqb a "$"); [destruct (ch_eqb b "{")|].
  - destruct (ch_eqb a "$") eqn:Ea.
    2:{ unfold match_at; simpl. now rewrite Ea. }
    destruct (ch_eqb b "{") eqn:Eb.
    2:{ unfold match_at; simpl. now rewrite Ea, Eb. }
    apply ch_eqb_true in Ea, Eb. subst a b.
    rewrite match_bare_unfold.
    destruct (ch_eqb x "}") eqn:Ex; [discriminate|].
    intros H. apply star_not_inv in H as (u & t & -> & Hu & H).
    unfold bare_tail in H. cbn [rmatch] in H.
    destruct t as [|c t]; [discriminate|].
    destruct (ch_eqb c "}") eqn:Ec; [|discriminate].
    apply ch_eqb_true in Ec. subst c. injection H as <-.
    pose proof (consumed_app (x :: u) ("}" :: t)) as E. cbn [app] in E.
    unfold repl, replace_var.
    cbn [m_caps m_ngroups m_rest group Nat.eqb Nat.ltb Nat.leb].
    rewrite E.
    destruct (dict_mem (x :: u) tbl); cbn; now rewrite <- app_assoc.
Qed.

(** The second pass changes nothing. *)
Lemma sub_bare_id (s : str) : re_sub pat_bare repl s = s.
Proof.
  unfold re_sub. generalize (length s) as fuel. intros fuel. revert s.
  induction fuel as [|fuel IH]; intros [|x s]; try reflexivity.
  cbn [re_sub_fuel].
  destruct (match_at pat_bare (x :: s)) as [m|] eqn:E.
  - rewrite IH. now apply match_bare_inv.
  - now rewrite IH.
Qed.

Lemma replace_env_vars_first_pass (s : str) :
  _replace_env_vars tbl s = re_sub pat_default repl s.
Proof. unfold _replace_env_vars. apply sub_bare_id. Qed.

(** Where the first pattern matches, the match is replaced as the rule
    says and the rewriting goes on behind it. *)
Lemma replace_env_vars_hit (s : str) (m : match_obj) :
  match_at pat_default s = Some m ->
  exists var d,
    nonempty var = true /\ nonempty d = true /\
    s = txt "${" ++ var ++ txt ":-" ++ d ++ "}" :: m_rest m /\
    _replace_env_vars tbl s =
    (if dict_mem var tbl then bare var else d)
    ++ _replace_env_vars tbl (m_rest m).
Proof.
  intros H. destruct (match_default_inv s m H)
    as (var & d & Hv & Hd & _ & _ & Hs & Hm).
  exists var, d. repeat split; auto.
  rewrite !replace_env_vars_first_pass.
  rewrite (sub_default_hit repl s m H). f_equal.
  rewrite Hm. rewrite replace_var_default by exact Hd.
  cbn [rewrite_segment]. reflexivity.
Qed.

(** Where it does not match, the character is kept. *)
Lemma replace_env_vars_miss (x : ascii) (s : str) :
  match_at pat_default (x :: s) = None ->
  _replace_env_vars tbl (x :: s) = x :: _replace_env_vars tbl s.
Proof.
  intros H. rewrite !replace_env_vars_first_pass. now apply re_sub_miss.
Qed.

Lemma has_sep_bare_prefix (var : str) :
  has_sep ("$" :: "{" :: var) = has_sep var.
Proof. rewrite 2 has_sep_cons. now destruct var. Qed.

Lemma sub_default_bare (var rest : str) :
  wf_word var = true ->
  re_sub pat_default repl (bare var ++ rest) =
  bare var ++ re_sub pat_default repl rest.
Proof.
  intros Hv. apply wf_word_inv in Hv as (x & u & -> & Hu & Hs).
  pose proof (sub_default_group ("$" :: "{" :: x :: u) rest) as H.
  unfold bare. cbn [txt list_ascii_of_string app] in *.
  rewrite <- !app_assoc. cbn [app].
  apply H.
  - apply no_ch_cons. split; [reflexivity|].
    apply no_ch_cons. split; [reflexivity|exact Hu].
  - now rewrite has_sep_bare_prefix.
Qed.

Lemma sub_default_segment (sg : segment) (rest : str) :
  wf_segment sg = true ->
  re_sub pat_default repl (render_segment sg ++ rest) =
  rewrite_segment tbl sg ++ re_sub pat_default repl rest.
Proof.
  destruct sg as [t|var [d|]]; cbn [wf_segment render_segment]; intros H.
  - now apply sub_default_plain.
  - apply andb_true_iff in H as [Hv Hd].
    rewrite <- (sub_default_ref var d rest Hv Hd).
    f_equal. now rewrite <- !app_assoc.
  - rewrite sub_default_bare by exact H.
    cbn [rewrite_segment]. now destruct (dict_mem var tbl).
Qed.

Lemma sub_default_text (segs : list segment) :
  wf_text segs = true ->
  re_sub pat_default repl (render segs) = rewrite_spec tbl segs.
Proof.
  induction segs as [|sg segs IH]; cbn [wf_text forallb]; intros H.
  - reflexivity.
  - apply andb_true_iff in H as [Hsg Hsegs].
    unfold render, rewrite_spec. cbn [flat_map].
    rewrite sub_default_segment by exact Hsg.
    f_equal. now apply IH.
Qed.

Lemma render_settle (segs : list segment) :
  render (map (settle tbl) segs) = rewrite_spec tbl segs.
Proof.
  unfold render, rewrite_spec. induction segs as [|sg segs IH].
  - reflexivity.
  - cbn [map flat_map]. rewrite IH. f_equal.
    destruct sg as [t|var [d|]]; cbn [settle rewrite_segment];
      [reflexivity| |]; now destruct (dict_mem var tbl).
Qed.

Lemma rewrite_settle (segs : list segment) :
  rewrite_spec tbl (map (settle tbl) segs) = rewrite_spec tbl segs.
Proof.
  unfold rewrite_spec. induction segs as [|sg segs IH].
  - reflexivity.
  - cbn [map flat_map]. rewrite IH. f_equal.
    destruct sg as [t|var [d|]]; cbn [settle rewrite_segment];
      [reflexivity| |];
      destruct (dict_mem var tbl) eqn:E; cbn [rewrite_segment];
      rewrite ?E; reflexivity.
Qed.

Lemma wf_settle (segs : list segment) :
  wf_text segs = true -> plain_defaults segs = true ->
  wf_text (map (settle tbl) segs) = true.
Proof.
  unfold wf_text, plain_defaults.
  induction segs as [|sg segs IH]; cbn [map forallb]; intros Hw Hp.
  - reflexivity.
  - apply andb_true_iff in Hw as [Hw Hws].
    apply andb_true_iff in Hp as [Hp Hps].
    rewrite (IH Hws Hps), andb_true_r.
    destruct sg as [t|var [d|]]; cbn [settle wf_segment] in *; auto.
    + apply andb_true_iff in Hw as [Hv Hd].
      now destruct (dict_mem var tbl).
    + now destruct (dict_mem var tbl).
Qed.

End Rewriter.

(** * Variable discovery *)

Section Discovery.

Lemma match_find_unfold (x : ascii) (s : str) :
  match_at pat_find ("$" :: "{" :: x :: s) =
  if ch_eqb x "}" then None
  else star_not "}" s
         (fun t =>
            rmatch
              (ROpt (RChar ":" +++ RChar "-" +++ RStarNot "}") +++ RChar "}")
              t [(1, consumed (x :: s) t)]
              (fun t' g => Some (MkMatch g 1 t'))).
Proof. reflexivity. Qed.

(** The name group runs up to the closing brace: it takes the separator
    and the default with it. *)
Lemma match_find_group (body rest : str) :
  nonempty body = true -> no_ch "}" body ->
  match_at pat_find (txt "${" ++ body ++ "}" :: rest) =
  Some (MkMatch [(1, body)] 1 rest).
Proof.
  intros Hne Hb. destruct body as [|x u]; [discriminate|].
  apply no_ch_cons in Hb as [Hx Hu].
  change (txt "${" ++ (x :: u) ++ "}" :: rest)
    with ("$" :: "{" :: x :: u ++ "}" :: rest).
  rewrite match_find_unfold, Hx.
  apply star_not_longest; [exact Hu|].
  cbn [rmatch]. change (ch_eqb "}" ":") with false.
  change (ch_eqb "}" "}") with true. cbv iota.
  pose proof (consumed_app (x :: u) ("}" :: rest)) as E. cbn [app] in E.
  now rewrite E.
Qed.

Lemma findall_single (body : str) :
  nonempty body = true -> no_ch "}" body ->
  re_findall pat_find (txt "${" ++ body ++ txt "}") = [body].
Proof.
  intros Hne Hb. unfold re_findall.
  pose proof (match_find_group body [] Hne Hb) as E.
  change (txt "}") with ["}"].
  change (txt "${" ++ body ++ ["}"]) with ("$" :: "{" :: body ++ ["}"]) in *.
  cbn [length re_findall_fuel]. rewrite E. cbn [m_caps m_rest group Nat.eqb].
  now destruct (length (body ++ ["}"])).
Qed.

End Discovery.

(** * The claims *)

(** C1 (the code departs from it): scanning a reference with a default
    does not discover the bare name.  The name group of the pattern is
    greedy up to the closing brace, so for every non-empty name and every
    default the one name found in "${NAME:-DEFAULT}" is the whole text
    "NAME:-DEFAULT", not "NAME". *)
Theorem find_env_vars_keeps_default (var d : str) :
  nonempty var = true -> no_ch "}" var -> no_ch "}" d ->
  _find_env_vars (VStr (txt "${" ++ var ++ txt ":-" ++ d ++ txt "}")) =
    Ok [var ++ txt ":-" ++ d] /\
  _find_env_vars (VStr (txt "${" ++ var ++ txt ":-" ++ d ++ txt "}")) <>
    Ok [var].
Proof.
  intros Hne Hv Hd.
  assert (_find_env_vars (VStr (txt "${" ++ var ++ txt ":-" ++ d ++ txt "}"))
          = Ok [var ++ txt ":-" ++ d]) as E.
  { unfold _find_env_vars, find_env_vars_str.
    replace (txt "${" ++ var ++ txt ":-" ++ d ++ txt "}")
      with (txt "${" ++ (var ++ txt ":-" ++ d) ++ txt "}")
      by now rewrite <- !app_assoc.
    rewrite findall_single.
    - reflexivity.
    - now destruct var.
    - apply no_ch_app. split; [exact Hv|].
      apply no_ch_app. split; [reflexivity|exact Hd]. }
  split; [exact E|]. rewrite E. intros H. injection H as H.
  apply app_suffix_neq in H; [exact H|]. discriminate.
Qed.

Lemma find_env_vars_keeps_default_FOO :
  _find_env_vars (VStr (txt "${FOO:-bar}")) = Ok [txt "FOO:-bar"] /\
  _find_env_vars (VStr (txt "${FOO:-bar}")) <> Ok [txt "FOO"].
Proof.
  apply (find_env_vars_keeps_default (txt "FOO") (txt "bar")); reflexivity.
Defined.

Lemma replace_env_vars_follows_rule_aux (tbl : dict str)
  (segs : list segment) :
  wf_text segs = true ->
  re_sub pat_default (replace_var tbl) (render segs) = rewrite_spec tbl segs /\
  _replace_env_vars tbl (render segs) = rewrite_spec tbl segs.
Proof.
  intros H. split.
  - now apply sub_default_text.
  - rewrite replace_env_vars_first_pass. now apply sub_default_text.
Qed.




(** C3, as stated, fails: a default may end in a dollar sign that joins the
    text after the reference into a new reference. *)
Lemma replace_env_vars_not_idempotent :
  _replace_env_vars [] (txt "${A:-$}{B:-c}") = txt "${B:-c}" /\
  _replace_env_vars [] (_replace_env_vars [] (txt "${A:-$}{B:-c}")) = txt "c" /\
  _replace_env_vars [] (_replace_env_vars [] (txt "${A:-$}{B:-c}")) <>
  _replace_env_vars [] (txt "${A:-$}{B:-c}").
Proof. repeat split; [vm_compute; reflexivity .. | vm_compute; discriminate]. Qed.

(** C3, amended: rewriting is idempotent on every text made of plain
    literal pieces and well-formed references whose defaults are plain
    text. *)
Theorem replace_env_vars_idempotent (tbl : dict str) (segs : list segment) :
  wf_text segs = true -> plain_defaults segs = true ->
  _replace_env_vars tbl (_replace_env_vars tbl (render segs)) =
  _replace_env_vars tbl (render segs).
Proof.
  intros Hw Hp.
  destruct (replace_env_vars_follows_rule_aux tbl segs Hw) as [_ ->].
  rewrite <- render_settle.
  destruct (replace_env_vars_follows_rule_aux tbl _ (wf_settle tbl segs Hw Hp))
    as [_ ->].
  now rewrite rewrite_settle, render_settle.
Qed.

Lemma replace_env_vars_idempotent_demo :
  _replace_env_vars [(txt "TAG", txt "t")]
    (_replace_env_vars [(txt "TAG", txt "t")]
       (txt "img:${TAG:-latest} ${UID:-1000}:${GID}")) =
  _replace_env_vars [(txt "TAG", txt "t")]
    (txt "img:${TAG:-latest} ${UID:-1000}:${GID}").
Proof.
  apply (replace_env_vars_idempotent [(txt "TAG", txt "t")]
           [ Lit (txt "img:"); Ref (txt "TAG") (Some (txt "latest"));
             Lit (txt " "); Ref (txt "UID") (Some (txt "1000"));
             Lit (txt ":"); Ref (txt "GID") None ]);
    reflexivity.
Defined.

(** * Ports *)

Section Ports.

Lemma contains_ch_app (c : ascii) (u v : str) :
  contains_ch c (u ++ c :: v) = true.
Proof.
  induction u as [|x u IH]; simpl.
  - now rewrite ch_eqb_refl.
  - rewrite IH. apply orb_true_r.
Qed.

Lemma ports_lines_list (cfg : dict value) (ports : list value) :
  dict_get (txt "ports") cfg = Some (VList ports) -> ports <> [] ->
  ports_lines (VDict cfg) =
  Ok ([indent 12 (txt "publishPorts = [")] ++ map port_line ports
      ++ [indent 12 (txt "];")]).
Proof.
  intros Hget Hne. unfold ports_lines, py_get. cbn [bind].
  rewrite Hget. cbn [truthy]. now destruct ports.
Qed.

End Ports.

(** * Volume mounts *)

Section Mounts.

Lemma split_ch_none (c : ascii) (s : str) :
  contains_ch c s = false -> split_ch c s = [s].
Proof.
  induction s as [|x s IH]; simpl; intros H.
  - reflexivity.
  - apply orb_false_iff in H as [Hx Hs]. now rewrite Hx, (IH Hs).
Qed.

Lemma split_ch_two_contains (c : ascii) (s : str) :
  length (split_ch c s) = 2 -> contains_ch c s = true.
Proof.
  intros H. destruct (contains_ch c s) eqn:E; [reflexivity|].
  rewrite (split_ch_none c s E) in H. discriminate.
Qed.

(** The guard of the relabel suffix, spelled out. *)
Lemma needs_relabel_spec (w : str) :
  needs_relabel w = true <->
  length (split_ch ":" w) = 2 /\
  startswith (txt "/dev") (hd [] (split_ch ":" w)) = false /\
  startswith (txt "/etc") (hd [] (split_ch ":" w)) = false /\
  endswith (txt ":ro") w = false /\
  endswith (txt ":z") w = false.
Proof.
  unfold needs_relabel. split.
  - intros H. apply andb_true_iff in H as [H Hparts].
    apply andb_true_iff in H as [H Hz]. apply andb_true_iff in H as [_ Hro].
    apply negb_true_iff in Hz, Hro.
    destruct (split_ch ":" w) as [|source [|target [|x parts]]];
      try discriminate.
    apply andb_true_iff in Hparts as [Hdev Hetc].
    apply negb_true_iff in Hdev, Hetc. now repeat split.
  - intros (Hlen & Hdev & Hetc & Hro & Hz).
    rewrite (split_ch_two_contains ":" w Hlen), Hro, Hz.
    destruct (split_ch ":" w) as [|source [|target [|x parts]]];
      try discriminate.
    cbn [hd] in Hdev, Hetc. now rewrite Hdev, Hetc.
Qed.

End Mounts.

(** C5: for a string mount, with [w] the mount after the substitution of
    the volume name and the rewriting of placeholders, the result is [w]
    with ":z" appended exactly when [w] has two parts between colons, the
    first part begins neither with "/dev" nor with "/etc", and [w] ends
    neither in ":ro" nor in ":z"; otherwise the result is [w].  The mount
    "data:/var/lib/app" of a managed volume [data] gives
    "${STACK_PATH}/data:/var/lib/app:z". *)
Theorem convert_volume_relabel (self : converter) (v : str) :
  let w := _replace_env_vars (variables self) (subst_volume (volumes self) v) in
  (_convert_volume self (VStr v) = Ok (w ++ txt ":z") <->
   length (split_ch ":" w) = 2 /\
   startswith (txt "/dev") (hd [] (split_ch ":" w)) = false /\
   startswith (txt "/etc") (hd [] (split_ch ":" w)) = false /\
   endswith (txt ":ro") w = false /\
   endswith (txt ":z") w = false) /\
  (_convert_volume self (VStr v) = Ok (w ++ txt ":z") \/
   _convert_volume self (VStr v) = Ok w) /\
  (forall (p : value) (tbl : dict str),
     _process_volumes init (VDict [(txt "data", VNone)]) p =
       Ok (MkConverter [] [] [(txt "data", txt "${STACK_PATH}/data")]) /\
     _convert_volume
       (MkConverter tbl [] [(txt "data", txt "${STACK_PATH}/data")])
       (VStr (txt "data:/var/lib/app")) =
     Ok (txt "${STACK_PATH}/data:/var/lib/app:z")).
Proof.
  intros w. unfold _convert_volume, convert_volume_str. fold w.
  rewrite <- needs_relabel_spec. repeat split.
  - destruct (needs_relabel w); [reflexivity|].
    intros H. injection H as H. symmetry in H.
    now apply app_suffix_neq in H.
  - now intros ->.
  - destruct (needs_relabel w); auto.
  - cbn [variables volumes].
    change (subst_volume [(txt "data", txt "${STACK_PATH}/data")]
              (txt "data:/var/lib/app"))
      with (render [Ref (txt "STACK_PATH") None;
                    Lit (txt "/data:/var/lib/app")]).
    destruct (replace_env_vars_follows_rule_aux tbl
                [Ref (txt "STACK_PATH") None; Lit (txt "/data:/var/lib/app")]
                eq_refl) as [_ ->].
    unfold rewrite_spec. cbn [flat_map rewrite_segment].
    now destruct (dict_mem (txt "STACK_PATH") tbl).
Qed.

(** * Environment values *)

Section Environment.

Lemma environment_lines_dict (self : converter) (cfg kvs : dict value) :
  dict_get (txt "environment") cfg = Some (VDict kvs) -> kvs <> [] ->
  environment_lines self (VDict cfg) =
  Ok ([indent 12 (txt "environments = {")]
      ++ map (environment_line (variables self)) kvs
      ++ [indent 12 (txt "};")]).
Proof.
  intros Hget Hne. unfold environment_lines, py_get. cbn [bind].
  rewrite Hget. cbn [truthy]. now destruct kvs.
Qed.

Lemma bind_ok (A B : Type) (m : result A) (f : A -> result B) (b : B) :
  bind m f = Ok b -> exists a, m = Ok a /\ f a = Ok b.
Proof. destruct m as [a|e]; simpl; intros H; [eauto | discriminate]. Qed.

Lemma Ok_inj (A : Type) (a b : A) : Ok a = Ok b -> a = b.
Proof. congruence. Qed.

End Environment.

(** C10: when the environment of a service is a (non-empty) mapping, the
    block of the service has, between the line that opens the
    [environments] set and the line that closes it, one line per item, in
    order: fourteen spaces, the key, " = ", a double quote, the value, a
    double quote and a semicolon.  The value of a string is the string
    after rewriting; the value of anything else is not rewritten: [True]
    and [False] for the booleans, [None] for null, the decimal digits for
    an integer (with a minus sign when negative), for a list or a mapping
    what [repr] gives, in which a reference stays as it is written. *)
Theorem environment_values_stringified (self : converter) (service_name : str)
  (cfg kvs : dict value) (deps : list value) (project_name : value)
  (text : str) :
  dict_get (txt "environment") cfg = Some (VDict kvs) -> kvs <> [] ->
  _generate_container_config self service_name (VDict cfg) deps project_name
    = Ok text ->
  (exists before after,
     text =
     join [ascii_of_nat 10]
       (before
        ++ [txt "            environments = {"]
        ++ map (fun kv =>
                  txt "              " ++ fst kv ++ txt " = "
                  ++ [ascii_of_nat 34]
                  ++ printed_value (variables self) (snd kv)
                  ++ [ascii_of_nat 34] ++ txt ";")
             kvs
        ++ [txt "            };"]
        ++ after)) /\
  printed_value (variables self) (VInt 8080) = txt "8080" /\
  printed_value (variables self) (VInt 0) = txt "0" /\
  printed_value (variables self) (VInt (-1)) = txt "-1" /\
  printed_value (variables self) (VList [VStr (txt "${A:-b}")])
    = txt "['${A:-b}']" /\
  printed_value (variables self) (VStr (txt "${A:-b}"))
    = (if dict_mem (txt "A") (variables self) then txt "${A}" else txt "b").
Proof.
  intros Hget Hne Hgen.
  split; [|repeat split; try (vm_compute; reflexivity)].
  - unfold _generate_container_config in Hgen.
    apply bind_ok in Hgen as (image & _ & Hgen).
    apply bind_ok in Hgen as (ports & _ & Hgen).
    apply bind_ok in Hgen as (vols & _ & Hgen).
    apply bind_ok in Hgen as (env_file & _ & Hgen).
    apply bind_ok in Hgen as (environment & Henv & Hgen).
    apply bind_ok in Hgen as (healthcheck & _ & Hgen).
    apply bind_ok in Hgen as (restart & _ & Hgen).
    rewrite (environment_lines_dict self cfg kvs Hget Hne) in Henv.
    apply Ok_inj in Henv, Hgen. subst environment text.
    exists ([ indent 8 (service_name ++ txt " = {");
              indent 10 (txt "containerConfig = {") ]
            ++ image ++ ports ++ vols ++ env_file).
    exists (healthcheck
            ++ [ indent 12 (txt "networks = [ networks."
                            ++ py_str project_name ++ txt ".ref ];") ]
            ++ label_lines ++ [ indent 10 (txt "};") ] ++ restart
            ++ deps_lines deps ++ [ indent 8 (txt "};"); [] ]).
    change [ascii_of_nat 10] with [NL]. f_equal.
    rewrite <- !app_assoc. do 7 f_equal.
    apply map_ext. intros [key v].
    unfold environment_line. cbn [fst snd].
    assert (forall x : str,
              indent 14 (key ++ txt " = " ++ quoted x ++ txt ";") =
              txt "              " ++ key ++ txt " = " ++ [ascii_of_nat 34]
              ++ x ++ [ascii_of_nat 34] ++ txt ";") as Hline.
    { intros x. unfold indent, quoted, DQ.
      change (repeat " "%char 14) with (txt "              ").
      do 3 f_equal. cbn [app]. now rewrite <- app_assoc. }
    destruct v as [|[|]|z|s0|l|d0]; apply Hline.
  - cbn [printed_value].
    destruct (replace_env_vars_follows_rule_aux (variables self)
                [Ref (txt "A") (Some (txt "b"))] eq_refl) as [_ H].
    change (txt "${A:-b}") with (render [Ref (txt "A") (Some (txt "b"))]).
    rewrite H. unfold rewrite_spec. cbn [flat_map rewrite_segment].
    rewrite app_nil_r. now destruct (dict_mem (txt "A") (variables self)).
Qed.

Lemma environment_values_stringified_demo :
  exists before after,
    _generate_container_config init (txt "web")
      (VDict [(txt "environment",
               VDict [(txt "DEBUG", VBool true);
                      (txt "EMPTY", VNone);
                      (txt "PORT", VInt 8080);
                      (txt "URL", VStr (txt "${DB:-db}"))])])
      [] (VStr (txt "proj")) =
    Ok (join [ascii_of_nat 10]
          (before
           ++ [ txt "            environments = {";
                txt "              DEBUG = " ++ [ascii_of_nat 34]
                ++ txt "True" ++ [ascii_of_nat 34] ++ txt ";";
                txt "              EMPTY = " ++ [ascii_of_nat 34]
                ++ txt "None" ++ [ascii_of_nat 34] ++ txt ";";
                txt "              PORT = " ++ [ascii_of_nat 34]
                ++ txt "8080" ++ [ascii_of_nat 34] ++ txt ";";
                txt "              URL = " ++ [ascii_of_nat 34]
                ++ txt "db" ++ [ascii_of_nat 34] ++ txt ";";
                txt "            };" ]
           ++ after)).
Proof.
  destruct (_generate_container_config init (txt "web")
              (VDict [(txt "environment",
                       VDict [(txt "DEBUG", VBool true);
                              (txt "EMPTY", VNone);
                              (txt "PORT", VInt 8080);
                              (txt "URL", VStr (txt "${DB:-db}"))])])
              [] (VStr (txt "proj"))) as [text|e] eqn:Hgen.
  - destruct (environment_values_stringified init (txt "web")
                [(txt "environment",
                  VDict [(txt "DEBUG", VBool true);
                         (txt "EMPTY", VNone);
                         (txt "PORT", VInt 8080);
                         (txt "URL", VStr (txt "${DB:-db}"))])]
                [(txt "DEBUG", VBool true); (txt "EMPTY", VNone);
                 (txt "PORT", VInt 8080); (txt "URL", VStr (txt "${DB:-db}"))]
                [] (VStr (txt "proj")) text eq_refl
                ltac:(intros H; discriminate H) Hgen)
      as ((before & after & Htext) & _).
    exists before, after. f_equal. exact Htext.
  - vm_compute in Hgen. discriminate Hgen.
Defined.

(** * The tables *)

Section Tables.

Lemma distinct_NoDup (l : list str) : distinct l = true <-> NoDup l.
Proof.
  induction l as [|x l IH]; simpl.
  - split; [constructor | reflexivity].
  - rewrite andb_true_iff, negb_true_iff, IH. split.
    + intros [Hx Hl]. constructor; [|exact Hl].
      intros Hin. apply mem_str_In in Hin. congruence.
    + intros H. inversion H as [|? ? Hx Hl]; subst. split; [|exact Hl].
      destruct (mem_str x l) eqn:E; [|reflexivity].
      apply mem_str_In in E. contradiction.
Qed.

Lemma mem_str_false (k : str) (l : list str) :
  mem_str k l = false <-> ~ In k l.
Proof.
  split.
  - intros H Hin. apply mem_str_In in Hin. congruence.
  - intros H. destruct (mem_str k l) eqn:E; [|reflexivity].
    apply mem_str_In in E. contradiction.
Qed.

Lemma distinct_middle (l r : list str) (x : str) :
  distinct (l ++ x :: r) = true ->
  mem_str x l = false /\ distinct ((l ++ [x]) ++ r) = true.
Proof.
  intros H. split.
  - apply distinct_NoDup, NoDup_remove_2 in H.
    apply mem_str_false. intros Hin. apply H, in_or_app. now left.
  - now rewrite <- app_assoc.
Qed.

Lemma distinct_snoc (l : list str) (x : str) :
  distinct l = true -> mem_str x l = false -> distinct (l ++ [x]) = true.
Proof.
  intros Hl Hx. apply distinct_NoDup. apply distinct_NoDup in Hl.
  apply mem_str_false in Hx.
  apply NoDup_app; [exact Hl | repeat constructor; auto | ].
  intros y Hy [<-|[]]. contradiction.
Qed.

(** Assigning distinct new keys one after the other appends them. *)
Lemma fold_dict_set_fresh (A V : Type) (key : A -> str) (val : A -> V)
  (xs : list A) :
  forall acc : dict V,
    distinct (dict_keys acc ++ map key xs) = true ->
    fold_left (fun t x => dict_set t (key x) (val x)) xs acc =
    acc ++ map (fun x => (key x, val x)) xs.
Proof.
  induction xs as [|x xs IH]; intros acc H; cbn [fold_left map].
  - now rewrite app_nil_r.
  - cbn [map] in H. apply distinct_middle in H as [Hx H].
    rewrite (dict_set_fresh V acc (key x) (val x) Hx).
    rewrite IH.
    + now rewrite <- app_assoc.
    + unfold dict_keys in *. now rewrite map_app.
Qed.

Lemma for_each_ok (A S : Type) (body : S -> A -> result S) (f : S -> A -> S)
  (xs : list A) :
  (forall st x, In x xs -> body st x = Ok (f st x)) ->
  forall st, for_each xs body st = Ok (fold_left f xs st).
Proof.
  induction xs as [|x xs IH]; intros Hbody st; cbn [for_each fold_left].
  - reflexivity.
  - rewrite Hbody by now left. cbn [bind].
    apply IH. intros st' y Hy. apply Hbody. now right.
Qed.

Lemma is_external_spec (cfg : value) :
  is_external cfg = true <-> marked_external cfg.
Proof.
  unfold marked_external. split.
  - destruct cfg as [| | | | |kvs]; unfold is_external;
      try (intros H; discriminate H).
    destruct (dict_get (txt "external") kvs) as [v|] eqn:E;
      [|intros H; discriminate H].
    intros Hv. now exists kvs, v.
  - intros (kvs & v & -> & Hget & Hv). unfold is_external. now rewrite Hget.
Qed.

Lemma dict_get_map_In (A V : Type) (val : str * A -> V) (d : dict A)
  (k : str) (a : A) :
  distinct (dict_keys d) = true -> In (k, a) d ->
  dict_get k (map (fun kv => (fst kv, val kv)) d) = Some (val (k, a)).
Proof.
  intros Hd Hin. apply dict_get_In.
  - unfold dict_keys in *. rewrite map_map. cbn [fst]. exact Hd.
  - apply in_map_iff. exists (k, a). auto.
Qed.

Lemma dict_keys_map (A V : Type) (val : str * A -> V) (d : dict A) :
  dict_keys (map (fun kv => (fst kv, val kv)) d) = dict_keys d.
Proof. unfold dict_keys. rewrite map_map. reflexivity. Qed.

End Tables.

Lemma process_volumes_fold (self : converter) (kvs : dict value)
  (project_name : value) :
  volumes self = [] -> distinct (dict_keys kvs) = true ->
  _process_volumes self (VDict kvs) project_name =
  Ok (set_volumes self
        (map (fun kv => (fst kv, volume_target (fst kv) (snd kv))) kvs)).
Proof.
  intros Hempty Hd. unfold _process_volumes. cbn [py_items bind].
  rewrite Hempty.
  now rewrite (fold_dict_set_fresh _ _ fst
                 (fun kv => volume_target (fst kv) (snd kv)) kvs [] Hd).
Qed.

(** C6: from an empty table, the declarations (a mapping with distinct
    names) give a table with the same names in the same order; a volume
    marked external is mapped to its own name, every other one to
    "${STACK_PATH}/" followed by its name, whatever the project name; an
    empty mapping, which is also what stands for an absent one, gives the
    empty table; no exception is raised. *)
Theorem process_volumes_table (self : converter) (kvs : dict value)
  (project_name : value) :
  volumes self = [] -> distinct (dict_keys kvs) = true ->
  exists self',
    _process_volumes self (VDict kvs) project_name = Ok self' /\
    dict_keys (volumes self') = dict_keys kvs /\
    (forall volume_name volume_config,
       In (volume_name, volume_config) kvs ->
       (marked_external volume_config ->
        dict_get volume_name (volumes self') = Some volume_name) /\
       (~ marked_external volume_config ->
        dict_get volume_name (volumes self') =
        Some (txt "${STACK_PATH}/" ++ volume_name))) /\
    (kvs = [] -> volumes self' = []) /\
    variables self' = variables self.
Proof.
  intros Hempty Hd. eexists. split; [now apply process_volumes_fold|].
  cbn [volumes variables set_volumes]. repeat split.
  - apply dict_keys_map.
  - intros Hext.
    rewrite (dict_get_map_In _ _ (fun kv => volume_target (fst kv) (snd kv))
               kvs volume_name volume_config Hd H).
    unfold volume_target. cbn [fst snd].
    apply is_external_spec in Hext. now rewrite Hext.
  - intros Hext.
    rewrite (dict_get_map_In _ _ (fun kv => volume_target (fst kv) (snd kv))
               kvs volume_name volume_config Hd H).
    unfold volume_target. cbn [fst snd].
    destruct (is_external volume_config) eqn:E; [|reflexivity].
    apply is_external_spec in E. contradiction.
  - now intros ->.
Qed.

Lemma process_volumes_table_demo :
  exists self',
    _process_volumes init
      (VDict [ (txt "data", VNone);
               (txt "shared", VDict [(txt "external", VBool true)]) ])
      (VStr (txt "proj")) = Ok self' /\
    dict_get (txt "data") (volumes self') = Some (txt "${STACK_PATH}/data") /\
    dict_get (txt "shared") (volumes self') = Some (txt "shared").
Proof.
  destruct (process_volumes_table init
              [ (txt "data", VNone);
                (txt "shared", VDict [(txt "external", VBool true)]) ]
              (VStr (txt "proj")) eq_refl eq_refl)
    as (self' & Hrun & _ & Hget & _).
  exists self'. split; [exact Hrun|]. split.
  - apply (Hget (txt "data") VNone); [now left|].
    intros (kvs & v & Heq & _). discriminate Heq.
  - apply (Hget (txt "shared") (VDict [(txt "external", VBool true)]));
      [right; now left|].
    now exists [(txt "external", VBool true)], (VBool true).
Defined.

(** * Dependencies *)

Section Dependencies.

(** The [depends_on] field of a service, with the default of [get]. *)
Lemma extract_dependencies_fold (kvs : dict value) :
  forallb (fun kv => is_dict (snd kv)) kvs = true ->
  forall acc,
    for_each kvs
      (fun dependencies service =>
         deps <- py_get (snd service) (txt "depends_on") (VList []) ;;
         Ok (dict_set dependencies (fst service) (deps_of deps)))
      acc =
    Ok (fold_left
          (fun t service =>
             dict_set t (fst service)
               (deps_of
                  match snd service with
                  | VDict cfg =>
                      match dict_get (txt "depends_on") cfg with
                      | Some v => v
                      | None => VList []
                      end
                  | _ => VList []
                  end))
          kvs acc).
Proof.
  intros Hall. apply for_each_ok. intros st [service_name cfg] Hin.
  rewrite forallb_forall in Hall. specialize (Hall _ Hin). cbn [snd fst] in *.
  now destruct cfg.
Qed.

End Dependencies.

(** C7: for a services mapping (distinct names, each service a mapping)
    the extraction returns a table with exactly the names of the services,
    in order; the entry of a service is the key list of its [depends_on]
    when that is a mapping, the list itself when it is a list, and the
    empty list when the field is absent or has any other shape. *)
Theorem extract_dependencies_entries (kvs : dict value) :
  distinct (dict_keys kvs) = true ->
  forallb (fun kv => is_dict (snd kv)) kvs = true ->
  exists dependencies,
    _extract_dependencies (VDict kvs) = Ok dependencies /\
    dict_keys dependencies = dict_keys kvs /\
    forall service_name cfg,
      In (service_name, VDict cfg) kvs ->
      (forall m,
         dict_get (txt "depends_on") cfg = Some (VDict m) ->
         dict_get service_name dependencies =
         Some (map (fun k => VStr k) (dict_keys m))) /\
      (forall l,
         dict_get (txt "depends_on") cfg = Some (VList l) ->
         dict_get service_name dependencies = Some l) /\
      (dict_get (txt "depends_on") cfg = None ->
       dict_get service_name dependencies = Some []) /\
      (forall v,
         dict_get (txt "depends_on") cfg = Some v ->
         is_dict v = false -> is_list v = false ->
         dict_get service_name dependencies = Some []).
Proof.
  intros Hd Hall. eexists. split.
  - unfold _extract_dependencies. cbn [py_items bind].
    rewrite (extract_dependencies_fold kvs Hall).
    now rewrite (fold_dict_set_fresh _ _ fst _ kvs [] Hd).
  - cbn [app]. split; [apply dict_keys_map|].
    intros service_name cfg Hin.
    rewrite (dict_get_map_In _ _ _ kvs service_name (VDict cfg) Hd Hin).
    cbn [snd]. repeat split.
    + intros m ->. cbn [deps_of]. unfold dict_keys. now rewrite map_map.
    + now intros l ->.
    + now intros ->.
    + intros v -> Hv1 Hv2. now destruct v.
Qed.

Lemma extract_dependencies_entries_demo :
  exists dependencies,
    _extract_dependencies
      (VDict [ (txt "web",
                VDict [(txt "depends_on",
                        VDict [(txt "a", VDict []); (txt "b", VDict [])])]);
               (txt "db", VDict []) ]) = Ok dependencies /\
    dict_get (txt "web") dependencies = Some [VStr (txt "a"); VStr (txt "b")] /\
    dict_get (txt "db") dependencies = Some [].
Proof.
  destruct (extract_dependencies_entries
              [ (txt "web",
                 VDict [(txt "depends_on",
                         VDict [(txt "a", VDict []); (txt "b", VDict [])])]);
                (txt "db", VDict []) ] eq_refl eq_refl)
    as (dependencies & Hrun & _ & Hget).
  exists dependencies. split; [exact Hrun|]. split.
  - destruct (Hget (txt "web") _ (or_introl eq_refl)) as (Hmap & _).
    now apply (Hmap [(txt "a", VDict []); (txt "b", VDict [])]).
  - destruct (Hget (txt "db") _ (or_intror (or_introl eq_refl)))
      as (_ & _ & Habsent & _).
    now apply Habsent.
Defined.

(** * The variable table *)

Section Variables.

Lemma define_variables_cons (var : str) (names : list str) (tbl : dict str) :
  define_variables (var :: names) tbl =
  define_variables names (define_step tbl var).
Proof. reflexivity. Qed.

Lemma define_step_keeps (tbl : dict str) (var k v : str) :
  dict_get k tbl = Some v -> dict_get k (define_step tbl var) = Some v.
Proof.
  intros H. unfold define_step, dict_mem.
  destruct (dict_get var tbl) eqn:E; [exact H|].
  rewrite dict_get_set_other; [exact H|]. congruence.
Qed.

(** An entry of the table is never overwritten. *)
Lemma define_variables_keeps (names : list str) :
  forall (tbl : dict str) (k v : str),
    dict_get k tbl = Some v ->
    dict_get k (define_variables names tbl) = Some v.
Proof.
  induction names as [|var names IH]; intros tbl k v H.
  - exact H.
  - rewrite define_variables_cons. apply IH. now apply define_step_keeps.
Qed.

(** A new name gets its suggested value. *)
Lemma define_variables_adds (names : list str) :
  forall (tbl : dict str) (k : str),
    In k names -> dict_get k tbl = None ->
    dict_get k (define_variables names tbl) =
    Some (_suggest_variable_value k).
Proof.
  induction names as [|var names IH]; intros tbl k Hin Hnone.
  - contradiction.
  - rewrite define_variables_cons.
    destruct (str_eqb var k) eqn:E.
    + apply str_eqb_true in E. subst var.
      apply define_variables_keeps.
      unfold define_step, dict_mem. rewrite Hnone.
      apply dict_get_set_same.
    + apply str_eqb_false in E. destruct Hin as [Heq|Hin]; [contradiction|].
      apply IH; [exact Hin|].
      unfold define_step. destruct (dict_mem var tbl); [exact Hnone|].
      now rewrite dict_get_set_other.
Qed.

(** The table has no other keys than the old ones and the names. *)
Lemma define_variables_keys (names : list str) :
  forall (tbl : dict str) (k : str),
    dict_get k (define_variables names tbl) <> None ->
    dict_get k tbl <> None \/ In k names.
Proof.
  induction names as [|var names IH]; intros tbl k H.
  - now left.
  - rewrite define_variables_cons in H. apply IH in H as [H|H].
    + unfold define_step in H. destruct (dict_mem var tbl); [now left|].
      destruct (str_eqb var k) eqn:E.
      * apply str_eqb_true in E. right. now left.
      * apply str_eqb_false in E.
        rewrite dict_get_set_other in H by exact E. now left.
    + right. now right.
Qed.

Lemma define_variables_distinct (names : list str) :
  forall tbl : dict str,
    distinct (dict_keys tbl) = true ->
    distinct (dict_keys (define_variables names tbl)) = true.
Proof.
  induction names as [|var names IH]; intros tbl H.
  - exact H.
  - rewrite define_variables_cons. apply IH.
    unfold define_step, dict_mem.
    destruct (dict_get var tbl) eqn:E; [exact H|].
    apply dict_get_none_keys in E.
    rewrite dict_keys_set, E. now apply distinct_snoc.
Qed.

Lemma extract_variables_keeps (order : list str -> list str)
  (self self' : converter) (services : value) (k v : str) :
  _extract_variables order self services = Ok self' ->
  dict_get k (variables self) = Some v ->
  dict_get k (variables self') = Some v.
Proof.
  unfold _extract_variables. intros H Hk.
  apply bind_ok in H as (names & _ & H). apply Ok_inj in H. subst self'.
  cbn [variables set_variables]. now apply define_variables_keeps.
Qed.

Lemma process_volumes_variables (self self' : converter) (vols p : value) :
  _process_volumes self vols p = Ok self' -> variables self' = variables self.
Proof.
  unfold _process_volumes. intros H.
  apply bind_ok in H as (items & _ & H). apply Ok_inj in H. now subst self'.
Qed.

Lemma generate_nix_config_variables (self self' : converter)
  (services p : value) (dependencies : dict (list value)) (text : str) :
  _generate_nix_config self services p dependencies = Ok (text, self') ->
  variables self' = variables self.
Proof.
  unfold _generate_nix_config. intros H.
  apply bind_ok in H as (nets & _ & H).
  apply bind_ok in H as (items & _ & H).
  apply bind_ok in H as (containers & _ & H).
  apply Ok_inj in H. now injection H as _ <-.
Qed.

End Variables.

(** * Runs of the program *)

Section Runs.

Variable pf : platform.

Lemma io_bind_lift (A B : Type) (r : result A) (f : A -> io B) (w : world) :
  io_bind (lift r) f w =
  match r with
  | Ok a => f a w
  | Raise e => (Raise e, w)
  end.
Proof. unfold io_bind, lift. now destruct r. Qed.

Lemma read_file_world (p : str) (w w' : world) (r : result str) :
  read_file p w = (r, w') -> w' = w.
Proof.
  unfold read_file. destruct (dict_get p (files w)) as [[c|]|]; congruence.
Qed.

Lemma read_file_ok (p : str) (w w' : world) (t : str) :
  read_file p w = (Ok t, w') -> dict_get p (files w) = Some (File t).
Proof.
  unfold read_file. destruct (dict_get p (files w)) as [[c|]|]; congruence.
Qed.

Lemma dict_set_twice (V : Type) (d : dict V) (k : str) (a b : V) :
  dict_set (dict_set d k a) k b = dict_set d k b.
Proof.
  induction d as [|[k' v'] d IH]; cbn [dict_set].
  - now rewrite str_eqb_refl.
  - destruct (str_eqb k' k) eqn:E; cbn [dict_set]; rewrite E;
      [reflexivity | now rewrite IH].
Qed.

Lemma set_file_twice (w : world) (p a b : str) :
  set_file (set_file w p a) p b = set_file w p b.
Proof. unfold set_file. cbn [files stdout stderr]. now rewrite dict_set_twice. Qed.

(** The three ways in which the write of the output ends: the open is
    refused and nothing has changed; the whole text is stored; the device
    fails and a proper prefix of the text is stored. *)
Lemma write_file_cases (p data : str) (w w' : world) (x : result unit) :
  write_file pf p data w = (x, w') ->
  (x = Raise OSError /\ w' = w) \/
  (x = Ok tt /\ w' = set_file w p data) \/
  (exists k,
     room pf = Some k /\ k < length data /\
     x = Raise OSError /\ w' = set_file w p (firstn k data)).
Proof.
  unfold write_file, io_bind, open_write, write_text.
  destruct (dict_get p (files w)) as [[c|]|];
    try (intros H; left; split; congruence);
    (destruct (may_open pf p); [|intros H; left; split; congruence]);
    (destruct (room pf) as [k|];
     [ destruct (k <? length data)%nat eqn:Ek;
       [ apply Nat.ltb_lt in Ek; intros H; right; right; exists k;
         rewrite set_file_twice in H; repeat split; congruence
       | intros H; right; left; rewrite set_file_twice in H; split; congruence ]
     | intros H; right; left; rewrite set_file_twice in H; split; congruence ]).
Qed.

(** A run of [convert] either raises with the world as it was, or goes
    through the stages and assembles the document; only then, when an
    output path is given, is the file opened and written. *)
Lemma convert_inv (self : converter) (cf : str) (o n : option str)
  (w w' : world) (r : result (str * converter)) :
  convert pf self cf o n w = (r, w') ->
  (exists e, r = Raise e /\ w' = w) \/
  (exists text self',
     stages pf self cf n w text self' /\
     match given o with
     | None => r = Ok (text, self') /\ w' = w
     | Some path =>
         exists x,
           write_file pf path text w = (x, w') /\
           r = match x with
               | Ok _ => Ok (text, self')
               | Raise e => Raise e
               end
     end).
Proof.
  unfold convert. unfold io_bind at 1.
  destruct (read_file cf w) as [[t|e] w1] eqn:Eread;
    pose proof (read_file_world _ _ _ _ Eread) as ->;
    [|intros H; left; exists e; split; congruence].
  apply read_file_ok in Eread.
  rewrite io_bind_lift.
  destruct (safe_load pf t) as [compose_data|e] eqn:Eload;
    [|intros H; left; exists e; split; congruence].
  destruct (truthy compose_data) eqn:Etruthy; cbn [negb];
    [|unfold lift; intros H; left;
      exists (ValueError (txt "Empty or invalid compose file"));
      split; congruence].
  rewrite io_bind_lift.
  match goal with
  | |- context [match ?r with Ok _ => _ | Raise _ => _ end] =>
      destruct r as [project_name|e] eqn:Ename;
        [|intros H; left; exists e; split; congruence]
  end.
  rewrite io_bind_lift.
  destruct (py_get compose_data (txt "services") (VDict []))
    as [services|e] eqn:Eservices;
    [|intros H; left; exists e; split; congruence].
  destruct compose_data as [| | | | |doc]; try discriminate Eservices.
  assert (project_name = effective_name (parent_name pf cf) doc n) as ->.
  { unfold effective_name. destruct (given n) as [g|].
    - now apply Ok_inj in Ename.
    - cbn [py_get] in Ename. now apply Ok_inj in Ename. }
  rewrite io_bind_lift.
  destruct (py_get (VDict doc) (txt "volumes") (VDict []))
    as [vols|e] eqn:Evols; [|intros H; left; exists e; split; congruence].
  rewrite io_bind_lift.
  destruct (_process_volumes self vols
              (effective_name (parent_name pf cf) doc n))
    as [self1|e] eqn:E1; [|intros H; left; exists e; split; congruence].
  rewrite io_bind_lift.
  destruct (_extract_variables (set_order pf) self1 services)
    as [self2|e] eqn:E2; [|intros H; left; exists e; split; congruence].
  rewrite io_bind_lift.
  destruct (_extract_dependencies services)
    as [dependencies|e] eqn:E3; [|intros H; left; exists e; split; congruence].
  rewrite io_bind_lift.
  destruct (_generate_nix_config self2 services
              (effective_name (parent_name pf cf) doc n) dependencies)
    as [[nix_config self3]|e] eqn:E4;
    [|intros H; left; exists e; split; congruence].
  cbn [fst]. intros H. right. exists nix_config, self3. split.
  - exists t, doc, self1, self2, services, vols, dependencies.
    repeat split; auto. intros ->. discriminate Etruthy.
  - destruct (given o) as [path|].
    + unfold io_bind in H.
      destruct (write_file pf path nix_config w) as [[u|e] w2] eqn:Ew.
      * unfold lift in H. exists (Ok u). split; congruence.
      * exists (Raise e). split; congruence.
    + unfold lift in H. split; congruence.
Qed.

(** A run of [convert] that returns has gone through the stages, and has
    then stored the whole document at the output path when one is given. *)
Lemma convert_ok_inv (self self' : converter) (cf : str) (o n : option str)
  (w w' : world) (text : str) :
  convert pf self cf o n w = (Ok (text, self'), w') ->
  stages pf self cf n w text self' /\
  w' = match given o with
       | Some path => set_file w path text
       | None => w
       end.
Proof.
  intros H. apply convert_inv in H as [(e & H & _)|(t & s' & Hst & H)];
    [discriminate H|].
  destruct (given o) as [path|].
  - destruct H as (x & Hw & Hr).
    apply write_file_cases in Hw as [[-> _]|[[-> ->]|(k & _ & _ & -> & _)]];
      try discriminate Hr.
    apply Ok_inj in Hr. injection Hr as <- <-. now split.
  - destruct H as [Hr ->]. apply Ok_inj in Hr. injection Hr as <- <-.
    now split.
Qed.






End Runs.




Lemma convert_volume_relabel_demo :
  _convert_volume
    (MkConverter [] [] [(txt "data", txt "${STACK_PATH}/data")])
    (VStr (txt "data:/var/lib/app")) =
  Ok (txt "${STACK_PATH}/data:/var/lib/app:z").
Proof.
  apply (proj1 (convert_volume_relabel
                  (MkConverter [] [] [(txt "data", txt "${STACK_PATH}/data")])
                  (txt "data:/var/lib/app"))).
  vm_compute. repeat split.
Defined.

(** * Further properties of the rewriter and of the discovery *)

Section RewriterBounds.

Variable tbl : dict str.

Lemma length_bare (var : str) : length (bare var) = length var + 3.
Proof.
  unfold bare. rewrite !length_app. cbn [txt list_ascii_of_string length]. lia.
Qed.

Lemma replace_env_vars_length_aux (n : nat) :
  forall s, length s <= n -> length (_replace_env_vars tbl s) <= length s.
Proof.
  induction n as [|n IH]; intros s Hn.
  - destruct s; [|simpl in Hn; lia]. apply Nat.le_refl.
  - destruct s as [|x s]; [apply Nat.le_refl|].
    destruct (match_at pat_default (x :: s)) as [m|] eqn:E.
    + assert (length (m_rest m) < length (x :: s)) as Hlt
        by (apply (match_at_shorter "$" _ (x :: s) m E)).
      destruct (replace_env_vars_hit tbl (x :: s) m E)
        as (var & d & _ & _ & Hs & ->).
      assert (length (_replace_env_vars tbl (m_rest m)) <= length (m_rest m))
        as Hrest by (apply IH; simpl in Hlt, Hn; lia).
      apply (f_equal (@length ascii)) in Hs.
      rewrite !length_app in Hs. cbn [length] in Hs.
      cbn [txt list_ascii_of_string length] in Hs.
      rewrite length_app. cbn [length]. simpl in Hs.
      destruct (dict_mem var tbl); [rewrite length_bare|]; lia.
    + rewrite (replace_env_vars_miss tbl x s E). cbn [length].
      apply le_n_S, IH. simpl in Hn. lia.
Qed.

End RewriterBounds.

(** X1: the rewriter never makes a text longer: a reference with default
    gives way to a bare reference or to its default, both shorter, and
    everything else is kept. *)
Theorem replace_env_vars_never_longer (tbl : dict str) (s : str) :
  length (_replace_env_vars tbl s) <= length s.
Proof. apply (replace_env_vars_length_aux tbl (length s)), Nat.le_refl. Qed.

Section DiscoveredNames.

(** What the pattern of the discovery matches: a brace group; group 1 is
    a non-empty text without closing brace that stands right behind the
    opening brace. *)
Lemma match_find_inv (s : str) (m : match_obj) :
  match_at pat_find s = Some m ->
  exists var tail,
    nonempty var = true /\ no_ch "}" var /\
    group 1 (m_caps m) = Some var /\
    s = txt "${" ++ var ++ tail ++ "}" :: m_rest m.
Proof.
  destruct s as [|a [|b [|x s]]]; try discriminate.
  - unfold match_at; simpl. now destruct (ch_eqb a "$").
  - unfold match_at; simpl.
    now destruct (ch_eqb a "$"); [destruct (ch_eqb b "{")|].
  - destruct (ch_eqb a "$") eqn:Ea.
    2:{ unfold match_at; simpl. now rewrite Ea. }
    destruct (ch_eqb b "{") eqn:Eb.
    2:{ unfold match_at; simpl. now rewrite Ea, Eb. }
    apply ch_eqb_true in Ea, Eb. subst a b.
    rewrite match_find_unfold.
    destruct (ch_eqb x "}") eqn:Ex; [discriminate|].
    intros H. apply star_not_inv in H as (u & t & -> & Hu & H).
    pose proof (consumed_app (x :: u) t) as Ev. cbn [app] in Ev.
    rewrite Ev in H. clear Ev.
    assert (no_ch "}" (x :: u)) as Hvar by (apply no_ch_cons; now split).
    cbn [rmatch] in H.
    destruct t as [|c1 t]; [discriminate|].
    destruct (ch_eqb c1 ":") eqn:E1.
    + destruct t as [|c2 t].

      { apply ch_eqb_true in E1. subst c1. discriminate. }
      destruct (ch_eqb c2 "-") eqn:E2.
      * match type of H with
        | match ?X with Some _ => _ | None => _ end = _ =>
            destruct X as [m'|] eqn:Es
        end.
        -- injection H as <-.
           apply star_not_inv in Es as (v & t' & -> & Hv & Es).
           destruct t' as [|c3 rest]; [discriminate|].
           destruct (ch_eqb c3 "}") eqn:E3; [|discriminate].
           apply ch_eqb_true in E1, E2, E3. subst c1 c2 c3.
           injection Es as <-.
           exists (x :: u), (":" :: "-" :: v).
           repeat split; auto.
        -- apply ch_eqb_true in E1. subst c1. discriminate.
      * apply ch_eqb_true in E1. subst c1. discriminate.
    + destruct (ch_eqb c1 "}") eqn:E3; [|discriminate].
      apply ch_eqb_true in E3. subst c1. injection H as <-.
      exists (x :: u), []. repeat split; auto.
Qed.

Lemma findall_names (fuel : nat) :
  forall s name,
    In name (re_findall_fuel fuel pat_find s) ->
    nonempty name = true /\ no_ch "}" name /\
    exists pre post, s = pre ++ txt "${" ++ name ++ post.
Proof.
  induction fuel as [|fuel IH]; intros s name Hin.
  - destruct s; contradiction.
  - destruct s as [|x s]; [contradiction|].
    cbn [re_findall_fuel] in Hin.
    destruct (match_at pat_find (x :: s)) as [m|] eqn:E.
    + destruct (match_find_inv _ _ E) as (var & tail & Hne & Hb & Hg & Hs).
      rewrite Hg in Hin. destruct Hin as [<-|Hin].
      * repeat split; auto.
        exists [], (tail ++ "}" :: m_rest m). exact Hs.
      * apply IH in Hin as (H1 & H2 & pre & post & Hrest).
        repeat split; auto.
        exists (txt "${" ++ var ++ tail ++ ["}"] ++ pre), post.
        rewrite Hs, Hrest. rewrite <- !app_assoc. reflexivity.
    + apply IH in Hin as (H1 & H2 & pre & post & Hrest).
      repeat split; auto.
      exists (x :: pre), post. now rewrite Hrest.
Qed.

Lemma set_add_In (s : list str) (x y : str) :
  In y (set_add s x) <-> In y s \/ y = x.
Proof.
  unfold set_add. destruct (mem_str x s) eqn:E.
  - apply mem_str_In in E. split; [now left|].
    intros [H| ->]; auto.
  - rewrite in_app_iff. simpl. intuition.
Qed.

Lemma set_update_In (xs : list str) :
  forall s y, In y (set_update s xs) <-> In y s \/ In y xs.
Proof.
  unfold set_update. induction xs as [|x xs IH]; intros s y; cbn [fold_left].
  - simpl. tauto.
  - rewrite IH, set_add_In. simpl. intuition.
Qed.

End DiscoveredNames.

(** X2: a name that the discovery finds in a text is never empty, has no
    closing brace in it, and stands in the text right behind an opening
    "${"; so a text without "${" yields no name. *)
Theorem find_env_vars_names (s name : str) :
  In name (find_env_vars_str s) ->
  nonempty name = true /\ no_ch "}" name /\
  exists pre post, s = pre ++ txt "${" ++ name ++ post.
Proof.
  unfold find_env_vars_str, re_findall. intros H.
  apply set_update_In in H as [[]|H].
  now apply findall_names in H.
Qed.

Lemma find_env_vars_names_demo :
  nonempty (txt "TAG") = true /\ no_ch "}" (txt "TAG") /\
  exists pre post, txt "app:${TAG}-x" = pre ++ txt "${" ++ txt "TAG" ++ post.
Proof.
  apply (find_env_vars_names (txt "app:${TAG}-x") (txt "TAG")).
  vm_compute. now left.
Defined.

Section DiscoveryComplete.

Lemma scan_volumes_In (vols : list value) :
  forall acc x,
    In x (scan_volumes acc vols) <->
    In x acc \/ exists s, In (VStr s) vols /\ In x (find_env_vars_str s).
Proof.
  unfold scan_volumes.
  induction vols as [|v vols IH]; intros acc x; cbn [fold_left].
  - split; [now left|]. intros [H|(s & [] & _)]. exact H.
  - rewrite IH. destruct v as [| | |s0| |].
    4:{ rewrite set_update_In. split.
        - intros [[H|H]|(s & Hs & Hx)]; auto.
          + right. exists s0. split; [now left|exact H].
          + right. exists s. split; [now right|exact Hx].
        - intros [H|(s & [Hs|Hs] & Hx)]; auto.
          + injection Hs as ->. auto.
          + right. eauto. }
    all: split;
      [ intros [H|(s & Hs & Hx)]; auto; right; exists s; split;
        [now right|exact Hx]
      | intros [H|(s & [Hs|Hs] & Hx)]; auto; [discriminate Hs|];
        right; eauto ].
Qed.

Lemma scan_environment_In (env : dict value) :
  forall acc x,
    In x (scan_environment acc (VDict env)) <->
    In x acc \/ exists k s, In (k, VStr s) env /\ In x (find_env_vars_str s).
Proof.
  cbn [scan_environment].
  induction env as [|[k v] env IH]; intros acc x; cbn [fold_left snd].
  - split; [now left|]. intros [H|(k & s & [] & _)]. exact H.
  - rewrite IH. destruct v as [| | |s0| |].
    4:{ rewrite set_update_In. split.
        - intros [[H|H]|(k' & s & Hs & Hx)]; auto.
          + right. exists k, s0. split; [now left|exact H].
          + right. exists k', s. split; [now right|exact Hx].
        - intros [H|(k' & s & [Hs|Hs] & Hx)]; auto.
          + injection Hs as -> ->. auto.
          + right. eauto. }
    all: split;
      [ intros [H|(k' & s & Hs & Hx)]; auto; right; exists k', s; split;
        [now right|exact Hx]
      | intros [H|(k' & s & [Hs|Hs] & Hx)]; auto; [discriminate Hs|];
        right; eauto ].
Qed.

Lemma scan_environment_keeps (environment : value) (acc : list str)
  (x : str) :
  In x acc -> In x (scan_environment acc environment).
Proof.
  intros H. destruct environment as [| | | | |env]; try exact H.
  apply scan_environment_In. now left.
Qed.

(** One turn of the loop keeps the names found so far and adds those of
    the strings it scans. *)
Lemma scan_service_In (acc acc' : list str) (service_name : str)
  (cfg : dict value) :
  scan_service acc (service_name, VDict cfg) = Ok acc' ->
  (forall x, In x acc -> In x acc') /\
  (forall s x, referenced_in cfg s -> In x (find_env_vars_str s) ->
               In x acc').
Proof.
  unfold scan_service. cbn [snd py_get bind]. intros H.
  apply bind_ok in H as (found & Hfound & H).
  apply bind_ok in H as (vols & Hvols & H).
  apply Ok_inj in H. subst acc'.
  split.
  - intros x Hx. apply scan_environment_keeps, scan_volumes_In. left.
    apply set_update_In. now left.
  - intros s x [Himg|[(vs & Hget & Hin)|(env & k & Hget & Hin)]] Hx.
    + rewrite Himg in Hfound. apply Ok_inj in Hfound. subst found.
      apply scan_environment_keeps, scan_volumes_In. left.
      apply set_update_In. now right.
    + rewrite Hget in Hvols. apply Ok_inj in Hvols. subst vols.
      apply scan_environment_keeps, scan_volumes_In. right. eauto.
    + rewrite Hget. apply scan_environment_In. right. eauto.
Qed.

Lemma scan_services_In (items : dict value) :
  forall acc names,
    for_each items scan_service acc = Ok names ->
    (forall x, In x acc -> In x names) /\
    (forall service_name cfg s x,
       In (service_name, VDict cfg) items -> referenced_in cfg s ->
       In x (find_env_vars_str s) -> In x names).
Proof.
  induction items as [|[n c] items IH]; intros acc names H; cbn [for_each] in H.
  - apply Ok_inj in H. subst names. split; [auto|]. intros ? ? ? ? [].
  - apply bind_ok in H as (acc1 & H1 & H).
    apply IH in H as [Hkeep Hadd]. split.
    + intros x Hx. apply Hkeep.
      destruct c as [| | | | |cfg]; try discriminate H1.
      now apply (scan_service_In _ _ _ _ H1).
    + intros service_name cfg s x [Heq|Hin] Href Hx.
      * injection Heq as -> ->. apply Hkeep.
        now apply (proj2 (scan_service_In _ _ _ _ H1) s x).
      * now apply (Hadd service_name cfg s x).
Qed.

Lemma define_variables_mem (names : list str) (tbl : dict str) (x : str) :
  In x names -> dict_mem x (define_variables names tbl) = true.
Proof.
  intros Hin. unfold dict_mem. destruct (dict_get x tbl) as [v|] eqn:E.
  - now rewrite (define_variables_keeps names tbl x v E).
  - now rewrite (define_variables_adds names tbl x Hin E).
Qed.

End DiscoveryComplete.

(** X3: after [_extract_variables], every name that the discovery finds
    in the image of a service, in a string of its volume list or in a
    string value of its environment mapping is a key of the variable
    table, in whatever order the set of names is iterated. *)
Theorem extract_variables_complete (order : list str -> list str)
  (self self' : converter)
  (services : dict value) (service_name : str) (cfg : dict value)
  (s name : str) :
  visits_each order ->
  _extract_variables order self (VDict services) = Ok self' ->
  In (service_name, VDict cfg) services ->
  referenced_in cfg s ->
  In name (find_env_vars_str s) ->
  dict_mem name (variables self') = true.
Proof.
  unfold _extract_variables, collect_env_vars. cbn [py_items bind].
  intros Horder H Hin Href Hname.
  apply bind_ok in H as (names & Hscan & H). apply Ok_inj in H. subst self'.
  cbn [variables set_variables]. apply define_variables_mem.
  apply Horder.
  now apply (proj2 (scan_services_In _ _ _ Hscan) service_name cfg s name).
Qed.

Lemma extract_variables_complete_demo :
  dict_mem (txt "UPLOAD")
    (variables
       (MkConverter
          [ (txt "TAG", quoted (txt "tag")); (txt "UPLOAD", quoted (txt "upload")) ]
          [] [])) = true.
Proof.
  apply (extract_variables_complete (fun l => l) init _
           [ (txt "web",
              VDict [ (txt "image", VStr (txt "app:${TAG}"));
                      (txt "volumes", VList [VStr (txt "${UPLOAD}:/data")]) ]) ]
           (txt "web")
           [ (txt "image", VStr (txt "app:${TAG}"));
             (txt "volumes", VList [VStr (txt "${UPLOAD}:/data")]) ]
           (txt "${UPLOAD}:/data") (txt "UPLOAD")).
  - intros l x. tauto.
  - vm_compute. reflexivity.
  - now left.
  - right. left. exists [VStr (txt "${UPLOAD}:/data")]. split; [reflexivity|now left].
  - vm_compute. now left.
Defined.

(** * Further properties of the volume table and of the mounts *)

Section VolumeLookup.

Lemma startswith_prefix_eq (k n rest : str) :
  no_ch ":" k -> no_ch ":" n ->
  startswith (k ++ txt ":") (n ++ ":" :: rest) = true -> k = n.
Proof.
  revert n. induction k as [|a k IH]; intros [|b n] Hk Hn H;
    cbn [app txt list_ascii_of_string startswith] in H.
  - reflexivity.
  - apply no_ch_cons in Hn as [Hb _].
    apply andb_true_iff in H as [H _]. apply ch_eqb_true in H. subst b.
    discriminate Hb.
  - apply no_ch_cons in Hk as [Ha _].
    apply andb_true_iff in H as [H _]. apply ch_eqb_true in H. subst a.
    discriminate Ha.
  - apply no_ch_cons in Hk as [_ Hk]. apply no_ch_cons in Hn as [_ Hn].
    apply andb_true_iff in H as [H1 H2]. apply ch_eqb_true in H1. subst b.
    f_equal. now apply IH.
Qed.

(** With names that have no colon, the mount [name:rest] is matched by
    the entry of [name] and by no other. *)
Lemma subst_volume_lookup (tbl : dict str) (n rest : str) :
  (forall k, In k (dict_keys tbl) -> no_ch ":" k) -> no_ch ":" n ->
  subst_volume tbl (n ++ ":" :: rest) =
  match dict_get n tbl with
  | Some target => target ++ ":" :: rest
  | None => n ++ ":" :: rest
  end.
Proof.
  intros Hkeys Hn. induction tbl as [|[k t] tbl IH]; cbn [subst_volume dict_get].
  - reflexivity.
  - destruct (startswith (k ++ txt ":") (n ++ ":" :: rest)) eqn:E.
    + apply startswith_prefix_eq in E; [|apply Hkeys; now left|exact Hn].
      subst k. rewrite str_eqb_refl.
      replace (n ++ ":" :: rest) with ((n ++ txt ":") ++ rest)
        by now rewrite <- app_assoc.
      rewrite replace_first_prefix. now rewrite <- app_assoc.
    + destruct (str_eqb k n) eqn:Ek.
      * apply str_eqb_true in Ek. subst k.
        replace (n ++ ":" :: rest) with ((n ++ txt ":") ++ rest) in E
          by now rewrite <- app_assoc.
        rewrite startswith_app in E. discriminate E.
      * apply IH. intros k' Hk'. apply Hkeys. now right.
Qed.

Lemma fold_dict_set_get (A V : Type) (val : str * A -> V) (kvs : dict A) :
  distinct (dict_keys kvs) = true ->
  forall (acc : dict V) (k : str),
    dict_get k
      (fold_left (fun t kv => dict_set t (fst kv) (val kv)) kvs acc) =
    match dict_get k kvs with
    | Some a => Some (val (k, a))
    | None => dict_get k acc
    end.
Proof.
  induction kvs as [|[k0 a0] kvs IH]; intros Hd acc k; cbn [fold_left].
  - reflexivity.
  - cbn [dict_keys map fst distinct] in Hd.
    apply andb_true_iff in Hd as [Hk0 Hd]. apply negb_true_iff in Hk0.
    rewrite (IH Hd). cbn [dict_get fst].
    destruct (str_eqb k0 k) eqn:E.
    + apply str_eqb_true in E. subst k0.
      apply (dict_get_none_keys _ kvs k) in Hk0. rewrite Hk0.
      apply dict_get_set_same.
    + destruct (dict_get k kvs); [reflexivity|].
      apply dict_get_set_other. now apply str_eqb_false.
Qed.

Lemma endswith_app (p w : str) : endswith p (w ++ p) = true.
Proof. unfold endswith. rewrite rev_app_distr. apply startswith_app. Qed.

End VolumeLookup.

(** X4: [_process_volumes] on any converter, for a mapping with distinct
    names: a declared name is mapped to its target, also when the table
    had another entry for it, and every other entry of the table stays as
    it was; the variables and the networks are not touched.  An argument
    that is not a mapping raises [AttributeError]. *)
Theorem process_volumes_lookup (self : converter) (kvs : dict value)
  (project_name : value) :
  distinct (dict_keys kvs) = true ->
  (exists self',
     _process_volumes self (VDict kvs) project_name = Ok self' /\
     variables self' = variables self /\
     networks self' = networks self /\
     forall k,
       dict_get k (volumes self') =
       match dict_get k kvs with
       | Some volume_config => Some (volume_target k volume_config)
       | None => dict_get k (volumes self)
       end) /\
  (forall v, is_dict v = false ->
             _process_volumes self v project_name = Raise AttributeError).
Proof.
  intros Hd. split.
  - eexists. split; [reflexivity|]. cbn [variables networks volumes set_volumes].
    repeat split. intros k.
    apply (fold_dict_set_get _ _ (fun kv => volume_target (fst kv) (snd kv))
             kvs Hd).
  - intros v Hv. now destruct v.
Qed.

Lemma process_volumes_lookup_demo :
  exists self',
    _process_volumes
      (MkConverter [] [] [(txt "old", txt "kept"); (txt "data", txt "stale")])
      (VDict [(txt "data", VNone)]) VNone = Ok self' /\
    dict_get (txt "data") (volumes self') = Some (txt "${STACK_PATH}/data") /\
    dict_get (txt "old") (volumes self') = Some (txt "kept").
Proof.
  destruct (process_volumes_lookup
              (MkConverter [] [] [(txt "old", txt "kept");
                                  (txt "data", txt "stale")])
              [(txt "data", VNone)] VNone eq_refl)
    as [(self' & Hrun & _ & _ & Hget) _].
  exists self'. split; [exact Hrun|]. split.
  - apply (Hget (txt "data")).
  - apply (Hget (txt "old")).
Defined.

(** X5: for a fresh converter and declarations with distinct names that
    have no colon, the mount [name:rest] of a declared volume is rewritten
    to the target of the volume followed by [:rest] before placeholders
    are looked at: the mount itself when the volume is external,
    "${STACK_PATH}/name:rest" otherwise; a mount whose first part is no
    declared name is left as it is. *)
Theorem subst_volume_declared (kvs : dict value) (project_name : value)
  (self' : converter) (n rest : str) :
  distinct (dict_keys kvs) = true ->
  (forall k, In k (dict_keys kvs) -> no_ch ":" k) ->
  no_ch ":" n ->
  _process_volumes init (VDict kvs) project_name = Ok self' ->
  subst_volume (volumes self') (n ++ txt ":" ++ rest) =
  match dict_get n kvs with
  | Some volume_config =>
      if is_external volume_config then n ++ txt ":" ++ rest
      else txt "${STACK_PATH}/" ++ n ++ txt ":" ++ rest
  | None => n ++ txt ":" ++ rest
  end.
Proof.
  intros Hd Hkeys Hn Hrun.
  rewrite (process_volumes_fold init kvs project_name eq_refl Hd) in Hrun.
  apply Ok_inj in Hrun. subst self'. cbn [volumes set_volumes].
  change (txt ":" ++ rest) with (":" :: rest).
  rewrite subst_volume_lookup; [|now rewrite dict_keys_map|exact Hn].
  pose proof (fold_dict_set_get _ _
                (fun kv => volume_target (fst kv) (snd kv)) kvs Hd [] n) as E.
  rewrite (fold_dict_set_fresh _ _ fst _ kvs [] Hd) in E. cbn [app] in E.
  rewrite E. destruct (dict_get n kvs) as [cfg|]; [|reflexivity].
  unfold volume_target. cbn [fst snd].
  destruct (is_external cfg); [reflexivity|]. now rewrite <- app_assoc.
Qed.

Lemma subst_volume_declared_demo :
  subst_volume
    [(txt "data", txt "${STACK_PATH}/data"); (txt "shared", txt "shared")]
    (txt "shared:/srv:ro") = txt "shared:/srv:ro".
Proof.
  apply (subst_volume_declared
           [ (txt "data", VNone);
             (txt "shared", VDict [(txt "external", VBool true)]) ]
           VNone
           (MkConverter [] []
              [(txt "data", txt "${STACK_PATH}/data");
               (txt "shared", txt "shared")])
           (txt "shared") (txt "/srv:ro")).
  - reflexivity.
  - intros k [<-|[<-|[]]]; reflexivity.
  - reflexivity.
  - reflexivity.
Defined.

(** X6: the result of converting a string mount never asks for the
    relabel suffix again: the suffix is added at most once, and a second
    application of the test to the result changes nothing. *)
Theorem convert_volume_settled (self : converter) (v : str) :
  needs_relabel (convert_volume_str self v) = false.
Proof.
  unfold convert_volume_str.
  set (w := _replace_env_vars (variables self) (subst_volume (volumes self) v)).
  destruct (needs_relabel w) eqn:E; [|exact E].
  unfold needs_relabel. rewrite (endswith_app (txt ":z") w).
  cbn [negb]. now rewrite andb_false_r.
Qed.

(** * Further properties of the dependency table and of the blocks *)

Section Blocks.

Lemma extract_dependencies_raise (kvs : dict value) :
  forallb (fun kv => is_dict (snd kv)) kvs = false ->
  forall acc,
    for_each kvs
      (fun dependencies service =>
         deps <- py_get (snd service) (txt "depends_on") (VList []) ;;
         Ok (dict_set dependencies (fst service) (deps_of deps)))
      acc = Raise AttributeError.
Proof.
  induction kvs as [|[n c] kvs IH]; cbn [forallb snd]; intros H acc.
  - discriminate H.
  - cbn [for_each snd fst]. destruct c as [| | | | |cfg]; try reflexivity.
    cbn [is_dict andb] in H. cbn [py_get bind]. now apply IH.
Qed.

(** A loop that appends one computed item per element. *)
Lemma for_each_append (A B : Type) (f : A -> result B) (xs : list A) :
  forall acc res,
    for_each xs (fun acc x => c <- f x ;; Ok (acc ++ [c])) acc = Ok res ->
    exists cs, res = acc ++ cs /\ Forall2 (fun x c => f x = Ok c) xs cs.
Proof.
  induction xs as [|x xs IH]; intros acc res H; cbn [for_each] in H.
  - apply Ok_inj in H. subst res. exists []. split; [now rewrite app_nil_r|].
    constructor.
  - apply bind_ok in H as (acc1 & H1 & H).
    apply bind_ok in H1 as (c & Hc & H1). apply Ok_inj in H1. subst acc1.
    apply IH in H as (cs & -> & Hall).
    exists (c :: cs). split; [now rewrite <- app_assoc|].
    now constructor.
Qed.

Lemma fold_dict_set_keys (A V : Type) (val : str * A -> V) (kvs : dict A) :
  forall (acc : dict V) (k : str),
    dict_get k
      (fold_left (fun t kv => dict_set t (fst kv) (val kv)) kvs acc)
    <> None ->
    dict_get k acc <> None \/ In k (dict_keys kvs).
Proof.
  induction kvs as [|[n c] kvs IH]; intros acc k H; cbn [fold_left] in H.
  - now left.
  - apply IH in H as [H|H].
    + cbn [fst] in H. destruct (str_eqb n k) eqn:En.
      * apply str_eqb_true in En. subst n. right. now left.
      * apply str_eqb_false in En.
        rewrite dict_get_set_other in H by exact En. now left.
    + right. now right.
Qed.

Lemma all_strs_map (args : list str) : all_strs (map VStr args) = Ok args.
Proof.
  induction args as [|a args IH]; cbn [map all_strs]; [reflexivity|].
  now rewrite IH.
Qed.

Lemma all_strs_bad (pre : list str) (v : value) (post : list value) :
  is_str v = false -> all_strs (map VStr pre ++ v :: post) = Raise TypeError.
Proof.
  intros Hv. induction pre as [|a pre IH]; cbn [map app all_strs].
  - now destruct v.
  - now rewrite IH.
Qed.

End Blocks.

(** X7: [_extract_dependencies] returns a table exactly when its argument
    is a mapping all of whose services are mappings; when the argument is
    no mapping, or one of the services is none, it raises
    [AttributeError]. *)
Theorem extract_dependencies_total (services : value) :
  match services with
  | VDict kvs =>
      if forallb (fun kv => is_dict (snd kv)) kvs
      then exists dependencies,
             _extract_dependencies services = Ok dependencies /\
             forall k, dict_get k dependencies <> None ->
                       In k (dict_keys kvs)
      else _extract_dependencies services = Raise AttributeError
  | _ => _extract_dependencies services = Raise AttributeError
  end.
Proof.
  destruct services as [| | | | |kvs]; try reflexivity.
  destruct (forallb (fun kv => is_dict (snd kv)) kvs) eqn:E.
  - unfold _extract_dependencies. cbn [py_items bind].
    rewrite (extract_dependencies_fold kvs E). eexists. split; [reflexivity|].
    intros k H. apply fold_dict_set_keys in H as [H|H]; [|exact H].
    now contradiction H.
  - unfold _extract_dependencies. cbn [py_items bind].
    now apply extract_dependencies_raise.
Qed.

(** X8: when [_generate_nix_config] returns, the document has exactly one
    block per service, in the order of the services mapping, each the
    result of [_generate_container_config] for that service with its
    entry of the dependency table (the empty list when it has none); the
    bindings come before the blocks; the converter has gained the project
    name as a network and nothing else has changed in it. *)
Theorem generate_nix_config_blocks (self self' : converter)
  (services : dict value) (project_name : value)
  (dependencies : dict (list value)) (text : str) :
  _generate_nix_config self (VDict services) project_name dependencies
    = Ok (text, self') ->
  exists containers,
    Forall2
      (fun service block =>
         _generate_container_config self' (fst service) (snd service)
           (deps_for dependencies (fst service)) project_name = Ok block)
      services containers /\
    length containers = length services /\
    text =
    join [NL]
      [ indent 2 (txt "virtualisation.quadlet =");
        indent 4 (txt "let");
        join [NL] (let_bindings self project_name);
        indent 4 (txt "in");
        indent 4 (txt "{");
        indent 6 (txt "networks." ++ py_str project_name
                  ++ txt ".networkConfig.driver = "
                  ++ quoted (txt "bridge") ++ txt ";");
        indent 6 (txt "containers = {");
        join [NL] containers;
        indent 6 (txt "};");
        indent 4 (txt "};") ] /\
    networks_add (networks self) project_name = Ok (networks self') /\
    variables self' = variables self /\
    volumes self' = volumes self.
Proof.
  unfold _generate_nix_config. intros H.
  apply bind_ok in H as (nets & Hnets & H).
  cbn [py_items bind] in H.
  apply bind_ok in H as (containers & Hloop & H).
  apply Ok_inj in H. injection H as <- <-.
  apply (for_each_append _ _
           (fun service =>
              _generate_container_config (set_networks self nets)
                (fst service) (snd service)
                (deps_for dependencies (fst service)) project_name))
    in Hloop as (cs & -> & Hall).
  exists cs. cbn [app]. split; [exact Hall|].
  split; [symmetry; apply (Forall2_length Hall)|].
  now repeat split.
Qed.

Lemma generate_nix_config_blocks_demo :
  exists text self',
    _generate_nix_config init
      (VDict [(txt "web", VDict []); (txt "db", VDict [])])
      (VStr (txt "proj")) [] = Ok (text, self') /\
    networks_add [] (VStr (txt "proj")) = Ok (networks self').
Proof.
  destruct (_generate_nix_config init
              (VDict [(txt "web", VDict []); (txt "db", VDict [])])
              (VStr (txt "proj")) []) as [[text self']|e] eqn:Hrun.
  - exists text, self'. split; [reflexivity|].
    destruct (generate_nix_config_blocks _ _ _ _ _ _ Hrun)
      as (containers & _ & _ & _ & Hnets & _).
    exact Hnets.
  - vm_compute in Hrun. discriminate Hrun.
Defined.

(** X9: the volume list of a service whose items are strings or mappings
    gives one quoted line per item, in order, between the two lines of
    the list; a mapping item is printed as [str()] gives it and never
    raises; an empty list gives no line at all. *)
Theorem volumes_lines_one_per_mount (self : converter) (cfg : dict value)
  (vols : list value) :
  dict_get (txt "volumes") cfg = Some (VList vols) ->
  forallb (fun v => is_str v || is_dict v) vols = true ->
  exists mounts,
    Forall2 (fun v m => _convert_volume self v = Ok m) vols mounts /\
    volumes_lines self (VDict cfg) =
    Ok (match vols with
        | [] => []
        | _ :: _ =>
            [indent 12 (txt "volumes = [")]
            ++ map (fun m => indent 14 (quoted m)) mounts
            ++ [indent 12 (txt "];")]
        end).
Proof.
  intros Hget Hall.
  assert (exists mounts,
            Forall2 (fun v m => _convert_volume self v = Ok m) vols mounts)
    as (mounts & Hm).
  { clear Hget. induction vols as [|v vols IH].
    - exists []. constructor.
    - cbn [forallb] in Hall. apply andb_true_iff in Hall as [Hv Hall].
      destruct (IH Hall) as (ms & Hms).
      destruct v as [| | |s| |d]; try discriminate Hv.
      + exists (convert_volume_str self s :: ms). now constructor.
      + exists (py_str (VDict d) :: ms). now constructor. }
  exists mounts. split; [exact Hm|].
  unfold volumes_lines. cbn [py_get bind]. rewrite Hget.
  destruct vols as [|v vols]; [reflexivity|].
  cbn [truthy py_iter bind].
  assert (forall acc,
            for_each (v :: vols)
              (fun acc volume =>
                 volume_str <- _convert_volume self volume ;;
                 Ok (acc ++ [indent 14 (quoted volume_str)])) acc =
            Ok (acc ++ map (fun m => indent 14 (quoted m)) mounts)) as Hloop.
  { clear Hall Hget. induction Hm as [|v0 m0 vs ms Hv Hm IH]; intros acc.
    - now rewrite app_nil_r.
    - cbn [for_each]. rewrite Hv. cbn [bind]. rewrite IH.
      cbn [map]. now rewrite <- app_assoc. }
  rewrite Hloop. cbn [bind]. now rewrite <- app_assoc.
Qed.

Lemma volumes_lines_one_per_mount_demo :
  exists mounts,
    Forall2 (fun v m => _convert_volume init v = Ok m)
      [VStr (txt "/srv:/srv"); VDict [(txt "type", VStr (txt "bind"))]]
      mounts /\
    length mounts = 2.
Proof.
  destruct (volumes_lines_one_per_mount init
              [(txt "volumes",
                VList [VStr (txt "/srv:/srv");
                       VDict [(txt "type", VStr (txt "bind"))]])]
              [VStr (txt "/srv:/srv"); VDict [(txt "type", VStr (txt "bind"))]]
              eq_refl eq_refl) as (mounts & Hm & _).
  exists mounts. split; [exact Hm|].
  symmetry. apply (Forall2_length Hm).
Defined.

(** X10: a health check whose test is a list prints the items after the
    first, joined by spaces, and does not look at the first item at all;
    it prints nothing when its [disable] entry is true.  A health check
    that is not disabled and whose test has, after the first item, an item
    that is not a string raises [TypeError]. *)
Theorem healthcheck_command (cfg hc : dict value) (selector : value)
  (args : list str) (cfg' hc' : dict value) (selector' : value)
  (pre : list str) (v : value) (post : list value) :
  (dict_get (txt "healthcheck") cfg = Some (VDict hc) ->
   dict_get (txt "test") hc = Some (VList (selector :: map VStr args)) ->
   healthcheck_lines (VDict cfg) =
   Ok (if disabled hc then []
       else [indent 12 (txt "healthCmd = " ++ quoted (join (txt " ") args)
                        ++ txt ";")])) /\
  (dict_get (txt "healthcheck") cfg' = Some (VDict hc') ->
   dict_get (txt "test") hc' =
     Some (VList (selector' :: map VStr pre ++ v :: post)) ->
   is_str v = false -> disabled hc' = false ->
   healthcheck_lines (VDict cfg') = Raise TypeError).
Proof.
  split.
  - intros Hhc Htest.
    unfold healthcheck_lines, disabled. cbn [py_get bind]. rewrite Hhc.
    destruct hc as [|kv hc]; [discriminate Htest|].
    cbn [truthy]. set (h := kv :: hc) in *. cbn [py_get bind].
    destruct (dict_get (txt "disable") h) as [dv|].
    + destruct (truthy dv); cbn [negb]; [reflexivity|].
      rewrite Htest. cbn [truthy tl bind]. now rewrite all_strs_map.
    + cbn [truthy negb]. rewrite Htest. cbn [truthy tl bind].
      now rewrite all_strs_map.
  - intros Hhc' Htest' Hv Hdis.
    unfold healthcheck_lines. cbn [py_get bind]. rewrite Hhc'.
    destruct hc' as [|kv hc']; [discriminate Htest'|].
    cbn [truthy]. set (h := kv :: hc') in *. cbn [py_get bind].
    unfold disabled in Hdis.
    destruct (dict_get (txt "disable") h) as [dv|].
    + rewrite Hdis. cbn [negb]. rewrite Htest'. cbn [truthy tl bind].
      now rewrite all_strs_bad.
    + cbn [truthy negb]. rewrite Htest'. cbn [truthy tl bind].
      now rewrite all_strs_bad.
Qed.

Lemma healthcheck_command_demo :
  healthcheck_lines
    (VDict [(txt "healthcheck",
             VDict [(txt "test",
                     VList [VStr (txt "CMD"); VStr (txt "curl");
                            VStr (txt "-f"); VStr (txt "http://x")])])]) =
  Ok [indent 12 (txt "healthCmd = " ++ quoted (txt "curl -f http://x")
                 ++ txt ";")] /\
  healthcheck_lines
    (VDict [(txt "healthcheck",
             VDict [(txt "test",
                     VList [VStr (txt "CMD"); VStr (txt "sleep");
                            VInt 5])])]) =
  Raise TypeError.
Proof.
  pose proof (healthcheck_command
                [(txt "healthcheck",
                  VDict [(txt "test",
                          VList [VStr (txt "CMD"); VStr (txt "curl");
                                 VStr (txt "-f"); VStr (txt "http://x")])])]
                [(txt "test",
                  VList [VStr (txt "CMD"); VStr (txt "curl");
                         VStr (txt "-f"); VStr (txt "http://x")])]
                (VStr (txt "CMD"))
                [txt "curl"; txt "-f"; txt "http://x"]
                [(txt "healthcheck",
                  VDict [(txt "test",
                          VList [VStr (txt "CMD"); VStr (txt "sleep");
                                 VInt 5])])]
                [(txt "test",
                  VList [VStr (txt "CMD"); VStr (txt "sleep"); VInt 5])]
                (VStr (txt "CMD")) [txt "sleep"] (VInt 5) [])
    as [Hlist Hbad].
  split.
  - apply Hlist; reflexivity.
  - apply Hbad; reflexivity.
Defined.

(** * Further properties of the runs *)

Section Rejections.

Variable pf : platform.

(** The world after [main] has reported the exception [e]. *)
Lemma main_reports (args : arguments) (w : world) (e : exn) :
  path_exists (compose_file args) w = true ->
  convert pf init (compose_file args) (output args) (name args) w
    = (Raise e, w) ->
  main_parsed pf args w =
  (1%Z,
   MkWorld (files w) (stdout w)
     (stderr w ++ (txt "Error: " ++ str_of_exn pf e) ++ [NL])).
Proof.
  intros Hex Hconv. unfold main_parsed. rewrite Hex. cbn [negb].
  unfold main_try, io_bind. rewrite Hconv. reflexivity.
Qed.

Lemma convert_unreadable (self : converter) (cf : str) (o n : option str)
  (w : world) :
  dict_get cf (files w) = Some Dir ->
  convert pf self cf o n w = (Raise OSError, w).
Proof.
  intros H. unfold convert, io_bind, read_file. now rewrite H.
Qed.

Lemma convert_load_error (self : converter) (cf : str) (o n : option str)
  (w : world) (t : str) (e : exn) :
  dict_get cf (files w) = Some (File t) -> safe_load pf t = Raise e ->
  convert pf self cf o n w = (Raise e, w).
Proof.
  intros H Hl. unfold convert. unfold io_bind at 1. unfold read_file.
  rewrite H. rewrite io_bind_lift. now rewrite Hl.
Qed.

Lemma convert_empty (self : converter) (cf : str) (o n : option str)
  (w : world) (t : str) (doc : value) :
  dict_get cf (files w) = Some (File t) -> safe_load pf t = Ok doc ->
  truthy doc = false ->
  convert pf self cf o n w =
  (Raise (ValueError (txt "Empty or invalid compose file")), w).
Proof.
  intros H Hl Ht. unfold convert. unfold io_bind at 1. unfold read_file.
  rewrite H. rewrite io_bind_lift, Hl, Ht. reflexivity.
Qed.

Lemma convert_not_mapping (self : converter) (cf : str) (o n : option str)
  (w : world) (t : str) (doc : value) :
  dict_get cf (files w) = Some (File t) -> safe_load pf t = Ok doc ->
  truthy doc = true -> is_dict doc = false ->
  convert pf self cf o n w = (Raise AttributeError, w).
Proof.
  intros H Hl Ht Hd. unfold convert. unfold io_bind at 1. unfold read_file.
  rewrite H. rewrite io_bind_lift, Hl, Ht. cbn [negb].
  rewrite io_bind_lift.
  destruct (given n) as [g|].
  - rewrite io_bind_lift. now destruct doc.
  - now destruct doc.
Qed.

End Rejections.



(** X12: what [main] reports when the command line is accepted and the
    input exists but gives no usable document.  It exits with 1, prints
    one line "Error: ..." on the error stream and nothing else, and leaves
    the files alone: for a directory the text of the operating system's
    error, for a load error the text of that error, for a document that
    is empty or otherwise false ([None], an empty mapping or list, an
    empty string, zero, [False]) "Empty or invalid compose file", and for
    any other document that is not a mapping the text of the attribute
    error. *)
Theorem main_rejects_document (pf : platform) (argv : list str)
  (args : arguments) (w : world) :
  parse_args pf argv = Parsed args ->
  let report msg :=
    (1%Z,
     MkWorld (files w) (stdout w) (stderr w ++ (txt "Error: " ++ msg) ++ [NL]))
  in
  (dict_get (compose_file args) (files w) = Some Dir ->
   main pf argv w = report (exn_text pf OSError)) /\
  (forall t e,
     dict_get (compose_file args) (files w) = Some (File t) ->
     safe_load pf t = Raise e ->
     main pf argv w = report (str_of_exn pf e)) /\
  (forall t doc,
     dict_get (compose_file args) (files w) = Some (File t) ->
     safe_load pf t = Ok doc -> truthy doc = false ->
     main pf argv w = report (txt "Empty or invalid compose file")) /\
  (forall t doc,
     dict_get (compose_file args) (files w) = Some (File t) ->
     safe_load pf t = Ok doc -> truthy doc = true -> is_dict doc = false ->
     main pf argv w = report (exn_text pf AttributeError)).
Proof.
  intros Hparse. cbv zeta. unfold main. rewrite Hparse. repeat split.
  - intros H.
    apply (main_reports pf args w OSError).
    + unfold path_exists, dict_mem. now rewrite H.
    + now apply convert_unreadable.
  - intros t e H Hl.
    apply (main_reports pf args w e).
    + unfold path_exists, dict_mem. now rewrite H.
    + now apply (convert_load_error pf _ _ _ _ _ t).
  - intros t doc H Hl Ht.
    apply (main_reports pf args w
             (ValueError (txt "Empty or invalid compose file"))).
    + unfold path_exists, dict_mem. now rewrite H.
    + now apply (convert_empty pf _ _ _ _ _ t doc).
  - intros t doc H Hl Ht Hd.
    apply (main_reports pf args w AttributeError).
    + unfold path_exists, dict_mem. now rewrite H.
    + now apply (convert_not_mapping pf _ _ _ _ _ t doc).
Qed.

Lemma main_rejects_document_demo :
  main
    (MkPlatform
       (fun _ => Parsed (MkArgs (txt "c.yml") (Some (txt "out.nix")) None))
       (fun _ => Ok (VDict [])) (fun _ => []) (fun _ => []) (fun l => l)
       (fun _ => true) None)
    [txt "c.yml"; txt "-o"; txt "out.nix"]
    (MkWorld [(txt "c.yml", File [])] [] []) =
  (1%Z,
   MkWorld [(txt "c.yml", File [])] []
     (txt "Error: Empty or invalid compose file" ++ [NL])).
Proof.
  destruct (main_rejects_document
              (MkPlatform
                 (fun _ => Parsed (MkArgs (txt "c.yml")
                                     (Some (txt "out.nix")) None))
                 (fun _ => Ok (VDict [])) (fun _ => []) (fun _ => [])
                 (fun l => l) (fun _ => true) None)
              [txt "c.yml"; txt "-o"; txt "out.nix"]
              (MkArgs (txt "c.yml") (Some (txt "out.nix")) None)
              (MkWorld [(txt "c.yml", File [])] [] []) eq_refl)
    as (_ & _ & Hempty & _).
  apply (Hempty [] (VDict [])); reflexivity.
Defined.

(** X13: a run of [convert] on a fresh converter that returns has read a
    file whose document is a non-empty mapping, and has gone through the
    stages in order, each on the results of the ones before: volumes,
    variables, dependencies, document.  The project name of all stages is
    the non-empty name of the command line when there is one, else the
    [name] entry of the document, else the name of the parent directory;
    it is the one network that the converter holds at the end.  The world
    is as before, apart from the document stored at the output path when
    one is given. *)
Theorem convert_stages (pf : platform) (cf : str) (o n : option str)
  (w w' : world) (text : str) (self' : converter) :
  convert pf init cf o n w = (Ok (text, self'), w') ->
  exists t doc self1 self2 services vols dependencies,
    dict_get cf (files w) = Some (File t) /\
    safe_load pf t = Ok (VDict doc) /\
    doc <> [] /\
    py_get (VDict doc) (txt "services") (VDict []) = Ok services /\
    py_get (VDict doc) (txt "volumes") (VDict []) = Ok vols /\
    _process_volumes init vols (effective_name (parent_name pf cf) doc n)
      = Ok self1 /\
    _extract_variables (set_order pf) self1 services = Ok self2 /\
    _extract_dependencies services = Ok dependencies /\
    _generate_nix_config self2 services
      (effective_name (parent_name pf cf) doc n) dependencies
      = Ok (text, self') /\
    networks self' = [effective_name (parent_name pf cf) doc n] /\
    w' = match given o with
         | Some path =>
             MkWorld (dict_set (files w) path (File text)) (stdout w)
               (stderr w)
         | None => w
         end.
Proof.
  intros H.
  destruct (convert_ok_inv pf _ _ _ _ _ _ _ _ H) as [Hst Hw].
  destruct Hst as (t & doc & self1 & self2 & services & vols & dependencies
                   & H1 & H2 & H3 & H4 & H5 & H6 & H7 & H8 & H9).
  exists t, doc, self1, self2, services, vols, dependencies.
  repeat split; auto.
  assert (networks self2 = []) as Hnets.
  { unfold _process_volumes in H6. apply bind_ok in H6 as (i & _ & H6).
    apply Ok_inj in H6. subst self1.
    unfold _extract_variables in H7. apply bind_ok in H7 as (ns & _ & H7).
    apply Ok_inj in H7. now subst self2. }
  unfold _generate_nix_config in H9.
  apply bind_ok in H9 as (nets & Hadd & H9).
  apply bind_ok in H9 as (items & _ & H9).
  apply bind_ok in H9 as (cs & _ & H9).
  apply Ok_inj in H9. injection H9 as _ <-. cbn [networks set_networks].
  rewrite Hnets in Hadd. unfold networks_add in Hadd.
  destruct (effective_name (parent_name pf cf) doc n);
    try discriminate Hadd; now apply Ok_inj in Hadd.
Qed.

Lemma convert_stages_demo :
  exists text self' w',
    convert
      (MkPlatform (fun _ => Refused [])
         (fun _ => Ok (VDict [(txt "name", VStr (txt "doc"))]))
         (fun _ => txt "dir") (fun _ => []) (fun l => l) (fun _ => true) None)
      init (txt "c.yml") None (Some (txt "cli"))
      (MkWorld [(txt "c.yml", File [])] [] []) = (Ok (text, self'), w') /\
    networks self' = [VStr (txt "cli")].
Proof.
  destruct (convert
              (MkPlatform (fun _ => Refused [])
                 (fun _ => Ok (VDict [(txt "name", VStr (txt "doc"))]))
                 (fun _ => txt "dir") (fun _ => []) (fun l => l)
                 (fun _ => true) None)
              init (txt "c.yml") None (Some (txt "cli"))
              (MkWorld [(txt "c.yml", File [])] [] []))
    as [[[text self']|e] w'] eqn:Hrun.
  - exists text, self', w'. split; [reflexivity|].
    destruct (convert_stages _ _ _ _ _ _ _ _ Hrun)
      as (t & doc & s1 & s2 & sv & vs & ds & _ & Hload & _ & _ & _ & _ & _
          & _ & _ & Hnets & _).
    apply Ok_inj in Hload. injection Hload as <-. exact Hnets.
  - vm_compute in Hrun. discriminate Hrun.
Defined.

(** * Discovery and rewriting together *)

Section DefaultTaken.

Lemma match_find_head (x : ascii) (s : str) :
  ch_eqb x "$" = false -> match_at pat_find (x :: s) = None.
Proof. unfold match_at. simpl. now intros ->. Qed.

Lemma findall_skip (pre s : str) :
  no_ch "$" pre -> re_findall pat_find (pre ++ s) = re_findall pat_find s.
Proof.
  unfold re_findall. induction pre as [|x pre IH]; intros H.
  - reflexivity.
  - apply no_ch_cons in H as [Hx H]. cbn [app length re_findall_fuel].
    rewrite (match_find_head x _ Hx). now apply IH.
Qed.

Lemma no_dollar_plain (l : str) : no_ch "$" l -> plain l = true.
Proof.
  induction l as [|x l IH]; intros H; [reflexivity|].
  apply no_ch_cons in H as [Hx H]. cbn [plain]. rewrite Hx. now apply IH.
Qed.

Lemma define_variables_known (key : str) (names : list str) :
  forall tbl : dict str,
    dict_mem key tbl = true -> (forall x, In x names -> x = key) ->
    define_variables names tbl = tbl.
Proof.
  induction names as [|x names IH]; intros tbl Hm Hall; [reflexivity|].
  rewrite define_variables_cons.
  assert (x = key) as -> by (apply Hall; now left).
  unfold define_step. rewrite Hm. apply IH; [exact Hm|].
  intros y Hy. apply Hall. now right.
Qed.

(** A set with one element gives one entry, whatever the order of the
    visit. *)
Lemma define_variables_single (order : list str -> list str) (key : str) :
  visits_each order ->
  define_variables (order [key]) [] = [(key, _suggest_variable_value key)].
Proof.
  intros Hord.
  assert (forall x, In x (order [key]) -> x = key) as Hall.
  { intros x Hx. apply (proj1 (Hord [key] x)) in Hx. cbn [In] in Hx.
    destruct Hx as [Hx|Hx]; [now symmetry|contradiction]. }
  assert (In key (order [key])) as Hin by (apply Hord; now left).
  destruct (order [key]) as [|x names] eqn:E.
  - contradiction.
  - rewrite define_variables_cons.
    assert (x = key) as -> by (apply Hall; now left).
    unfold define_step. cbn [dict_mem dict_get dict_set].
    apply (define_variables_known key).
    + unfold dict_mem. cbn [dict_get]. now rewrite str_eqb_refl.
    + intros y Hy. apply Hall. now right.
Qed.

End DefaultTaken.

(** X14: discovery and rewriting do not agree on a reference with a
    default.  For a service whose image is a text without dollar sign
    followed by one well-formed reference "${NAME:-DEFAULT}" (and which has
    no volumes and no environment), the table that [_extract_variables]
    builds from nothing has the single key "NAME:-DEFAULT"; the rewriter
    looks for the key "NAME", does not find it, and the image line of the
    block carries the default in place of the reference. *)
Theorem default_taken_after_discovery (order : list str -> list str)
  (service_name pre var d : str) :
  visits_each order ->
  no_ch "$" pre -> wf_word var = true -> wf_word d = true ->
  let image := pre ++ txt "${" ++ var ++ txt ":-" ++ d ++ txt "}" in
  let cfg := [(txt "image", VStr image)] in
  exists self',
    _extract_variables order init (VDict [(service_name, VDict cfg)])
      = Ok self' /\
    variables self' =
      [(var ++ txt ":-" ++ d,
        _suggest_variable_value (var ++ txt ":-" ++ d))] /\
    image_lines self' (VDict cfg) =
      Ok [indent 12 (txt "image = " ++ quoted (pre ++ d) ++ txt ";")].
Proof.
  intros Hord Hpre Hvar Hd image cfg.
  destruct (wf_word_inv var Hvar) as (x & u & Evar & Hvb & _).
  destruct (wf_word_inv d Hd) as (y & v & Ed & Hdb & _).
  assert (find_env_vars_str image = [var ++ txt ":-" ++ d]) as Hfound.
  { unfold find_env_vars_str, image.
    rewrite findall_skip by exact Hpre.
    replace (txt "${" ++ var ++ txt ":-" ++ d ++ txt "}")
      with (txt "${" ++ (var ++ txt ":-" ++ d) ++ txt "}")
      by now rewrite <- !app_assoc.
    rewrite findall_single; [reflexivity| |].
    - subst var. reflexivity.
    - subst var d. apply no_ch_app. split; [exact Hvb|].
      apply no_ch_app. split; [reflexivity|exact Hdb]. }
  pose proof (define_variables_single order (var ++ txt ":-" ++ d) Hord)
    as Htbl.
  exists (set_variables init
            [(var ++ txt ":-" ++ d,
              _suggest_variable_value (var ++ txt ":-" ++ d))]).
  split; [|split].
  - unfold _extract_variables, collect_env_vars, scan_service.
    cbn [py_items bind for_each snd fst py_get].
    change (dict_get (txt "image") cfg) with (Some (VStr image)).
    change (dict_get (txt "volumes") cfg) with (@None value).
    change (dict_get (txt "environment") cfg) with (@None value).
    cbn [_find_env_vars bind py_iter scan_volumes scan_environment fold_left].
    rewrite Hfound.
    change (set_update [] [var ++ txt ":-" ++ d])
      with [var ++ txt ":-" ++ d].
    cbn [variables init]. do 2 f_equal. exact Htbl.
  - reflexivity.
  - unfold image_lines. cbn [py_get bind].
    change (dict_get (txt "image") cfg) with (Some (VStr image)).
    cbv iota.
    assert (truthy (VStr image) = true) as ->.
    { unfold image. cbn [truthy]. now destruct pre. }
    cbn [variables set_variables init].
    do 4 f_equal. f_equal.
    replace image
      with (render [Lit pre; Ref var (Some d)])
      by (unfold render, image; cbn [flat_map render_segment];
          now rewrite <- !app_assoc, app_nil_r).
    destruct (replace_env_vars_follows_rule_aux
                [(var ++ txt ":-" ++ d,
                  _suggest_variable_value (var ++ txt ":-" ++ d))]
                [Lit pre; Ref var (Some d)]) as [_ ->].
    + cbn [wf_text forallb wf_segment].
      now rewrite (no_dollar_plain pre Hpre), Hvar, Hd.
    + unfold rewrite_spec. cbn [flat_map rewrite_segment].
      assert (dict_mem var
                [(var ++ txt ":-" ++ d,
                  _suggest_variable_value (var ++ txt ":-" ++ d))]
              = false) as ->.
      { unfold dict_mem. cbn [dict_get].
        assert (str_eqb (var ++ txt ":-" ++ d) var = false) as ->; auto.
        apply str_eqb_false. apply app_suffix_neq.
        subst d. discriminate. }
      now rewrite app_nil_r.
Qed.

Lemma default_taken_after_discovery_demo :
  exists self',
    _extract_variables (fun l => l) init
      (VDict [(txt "web",
               VDict [(txt "image", VStr (txt "app:${TAG:-latest}"))])])
      = Ok self' /\
    variables self' =
      [(txt "TAG:-latest", quoted (txt "tag:-latest"))] /\
    image_lines self'
      (VDict [(txt "image", VStr (txt "app:${TAG:-latest}"))]) =
      Ok [indent 12 (txt "image = " ++ quoted (txt "app:latest") ++ txt ";")].
Proof.
  apply (default_taken_after_discovery (fun l => l) (txt "web") (txt "app:")
           (txt "TAG") (txt "latest")); try reflexivity.
  intros l x. tauto.
Defined.

(** * Stability *)

Section Stability.

Lemma has_sep_app_sep (u v : str) : has_sep (u ++ ":" :: "-" :: v) = true.
Proof.
  induction u as [|x u IH].
  - cbn [app]. now rewrite has_sep_cons.
  - cbn [app]. rewrite has_sep_cons, IH. apply orb_true_r.
Qed.

Lemma match_default_has_sep (s : str) (m : match_obj) :
  match_at pat_default s = Some m -> has_sep s = true.
Proof.
  intros H. destruct (match_default_inv s m H)
    as (var & d & _ & _ & _ & _ & -> & _).
  change (txt "${" ++ var ++ txt ":-" ++ d ++ "}" :: m_rest m)
    with ((txt "${" ++ var) ++ ":" :: "-" :: d ++ "}" :: m_rest m).
  apply has_sep_app_sep.
Qed.

Lemma for_each_stops (A S : Type) (body : S -> A -> result S)
  (pre : list A) (x : A) (post : list A) (st st1 : S) (e : exn) :
  for_each pre body st = Ok st1 -> body st1 x = Raise e ->
  for_each (pre ++ x :: post) body st = Raise e.
Proof.
  revert st. induction pre as [|y pre IH]; intros st Hpre Hx.
  - apply Ok_inj in Hpre. subst st1. cbn [app for_each]. now rewrite Hx.
  - cbn [app for_each] in *. destruct (body st y) as [st'|e']; [|discriminate].
    cbn [bind] in *. now apply IH.
Qed.

End Stability.

(** X15: a text in which the separator ":-" does not occur is never
    changed by the rewriter, whatever the table: bare references, braces
    that are not closed and dollar signs stay as they are. *)
Theorem replace_env_vars_no_separator (tbl : dict str) (s : str) :
  has_sep s = false -> _replace_env_vars tbl s = s.
Proof.
  induction s as [|x s IH]; intros H.
  - reflexivity.
  - rewrite replace_env_vars_miss.
    + f_equal. apply IH. rewrite has_sep_cons in H.
      now apply orb_false_iff in H.
    + destruct (match_at pat_default (x :: s)) as [m|] eqn:E; [|reflexivity].
      apply match_default_has_sep in E. congruence.
Qed.

Lemma replace_env_vars_no_separator_demo :
  _replace_env_vars [(txt "A", txt "1")] (txt "${A} $B ${unclosed") =
  txt "${A} $B ${unclosed".
Proof.
  apply (replace_env_vars_no_separator [(txt "A", txt "1")]
           (txt "${A} $B ${unclosed")).
  reflexivity.
Defined.

(** X16: a rendered port is stable: rendering the text of a rendered
    string port again gives the same text, so the loopback prefix is
    never put twice by the converter itself. *)
Theorem port_text_stable (p : str) :
  port_text (VStr (port_text (VStr p))) = port_text (VStr p).
Proof.
  cbn [port_text].
  destruct (contains_ch ":" p) eqn:Ec; [|now rewrite Ec].
  destruct (negb (startswith (txt "127.0.0.1:") p)
            && negb (startswith (txt "0.0.0.0:") p)) eqn:Es.
  - rewrite (startswith_app (txt "127.0.0.1:") p). cbn [negb andb].
    now destruct (contains_ch ":" (txt "127.0.0.1:" ++ p)).
  - now rewrite Ec, Es.
Qed.

(** X17: the table that the second loop of the discovery builds does not
    depend on the order in which the set of names is iterated, nor on
    repetitions: two lists with the same elements give the same value for
    every key. *)
Theorem define_variables_order (names1 names2 : list str) (tbl : dict str)
  (k : str) :
  (forall x, In x names1 <-> In x names2) ->
  dict_get k (define_variables names1 tbl) =
  dict_get k (define_variables names2 tbl).
Proof.
  intros Hsame. destruct (dict_get k tbl) as [v|] eqn:E.
  - now rewrite !(define_variables_keeps _ tbl k v E).
  - destruct (mem_str k names1) eqn:Ek.
    + apply mem_str_In in Ek.
      rewrite (define_variables_adds names1 tbl k Ek E).
      apply Hsame in Ek.
      now rewrite (define_variables_adds names2 tbl k Ek E).
    + apply mem_str_false in Ek.
      assert (forall names, ~ In k names ->
                dict_get k (define_variables names tbl) = None) as Hnone.
      { intros names Hn.
        destruct (dict_get k (define_variables names tbl)) as [v|] eqn:Ev;
          [|reflexivity].
        exfalso.
        destruct (define_variables_keys names tbl k) as [H|H];
          [congruence|congruence|contradiction]. }
      rewrite (Hnone names1 Ek).
      rewrite (Hnone names2); [reflexivity|].
      intros Hin. apply Ek. now apply Hsame.
Qed.

Lemma define_variables_order_demo :
  dict_get (txt "B")
    (define_variables [txt "A"; txt "B"] [(txt "A", txt "old")]) =
  dict_get (txt "B")
    (define_variables [txt "B"; txt "A"; txt "B"] [(txt "A", txt "old")]).
Proof.
  apply (define_variables_order [txt "A"; txt "B"]
           [txt "B"; txt "A"; txt "B"] [(txt "A", txt "old")] (txt "B")).
  intros x. simpl. tauto.
Defined.

(** X18: the discovery stops at the first service it cannot scan.  When
    the services before have been scanned, a service whose [image] entry
    is present and not a string (a null, a number) raises [TypeError], a
    service whose [volumes] entry is a null, a boolean or a number raises
    [TypeError] (its image being a string or absent), and a service that
    is not a mapping raises [AttributeError]; the table is not built. *)
Theorem extract_variables_stops (order : list str -> list str)
  (self : converter) (pre post : dict value)
  (service_name : str) (service : value) (names : list str) :
  for_each pre scan_service [] = Ok names ->
  (forall cfg v,
     service = VDict cfg ->
     dict_get (txt "image") cfg = Some v -> is_str v = false ->
     _extract_variables order self
       (VDict (pre ++ (service_name, service) :: post))
     = Raise TypeError) /\
  (forall cfg v,
     service = VDict cfg ->
     match dict_get (txt "image") cfg with
     | Some i => is_str i = true
     | None => True
     end ->
     dict_get (txt "volumes") cfg = Some v ->
     match v with VNone | VBool _ | VInt _ => True | _ => False end ->
     _extract_variables order self
       (VDict (pre ++ (service_name, service) :: post))
     = Raise TypeError) /\
  (is_dict service = false ->
   _extract_variables order self
     (VDict (pre ++ (service_name, service) :: post))
   = Raise AttributeError).
Proof.
  intros Hpre.
  assert (forall e,
            scan_service names (service_name, service) = Raise e ->
            _extract_variables order self
              (VDict (pre ++ (service_name, service) :: post)) = Raise e)
    as Hstop.
  { intros e He. unfold _extract_variables, collect_env_vars.
    cbn [py_items bind].
    now rewrite (for_each_stops _ _ scan_service pre _ post [] names e Hpre He). }
  repeat split.
  - intros cfg v -> Hget Hv. apply Hstop.
    unfold scan_service. cbn [snd py_get bind]. rewrite Hget.
    now destruct v.
  - intros cfg v -> Himg Hget Hv. apply Hstop.
    unfold scan_service. cbn [snd py_get bind]. rewrite Hget.
    destruct (dict_get (txt "image") cfg) as [i|].
    + destruct i; try discriminate Himg. cbn [_find_env_vars bind].
      now destruct v.
    + cbn [_find_env_vars bind]. now destruct v.
  - intros Hd. apply Hstop. unfold scan_service. cbn [snd].
    now destruct service.
Qed.

Lemma extract_variables_stops_demo :
  _extract_variables (fun l => l) init
    (VDict [ (txt "db", VDict [(txt "image", VStr (txt "pg"))]);
             (txt "web", VDict [(txt "volumes", VNone)]) ]) =
  Raise TypeError.
Proof.
  destruct (extract_variables_stops (fun l => l) init
              [(txt "db", VDict [(txt "image", VStr (txt "pg"))])] []
              (txt "web") (VDict [(txt "volumes", VNone)]) [] eq_refl)
    as (_ & Hvols & _).
  apply (Hvols [(txt "volumes", VNone)] VNone); reflexivity || exact I.
Defined.

(** * The loopback prefix of the ports *)

(** C4 (the code departs from it): the guard tests for two addresses
    only.  A string port [addr:rest] whose first part has no colon and is
    neither "127.0.0.1" nor "0.0.0.0" is printed with the loopback
    address in front, in double quotes after fourteen spaces: so is
    "8080:80", and so is every port bound to another address, as
    "192.168.1.1:8080:80".  A port that begins with "127.0.0.1:" or with
    "0.0.0.0:" is printed as it is.  The block of a service has one such
    line for each of its ports, in order, between the line that opens
    the list and the line that closes it. *)
Theorem port_bound_address_prefixed (addr rest : str) :
  no_ch ":" addr -> addr <> txt "127.0.0.1" -> addr <> txt "0.0.0.0" ->
  port_text (VStr (addr ++ txt ":" ++ rest)) =
    txt "127.0.0.1:" ++ addr ++ txt ":" ++ rest /\
  port_text (VStr (addr ++ txt ":" ++ rest)) <> addr ++ txt ":" ++ rest /\
  port_line (VStr (addr ++ txt ":" ++ rest)) =
    txt "              " ++ [ascii_of_nat 34] ++ txt "127.0.0.1:"
    ++ addr ++ txt ":" ++ rest ++ [ascii_of_nat 34] /\
  port_text (VStr (txt "127.0.0.1:" ++ rest)) = txt "127.0.0.1:" ++ rest /\
  port_text (VStr (txt "0.0.0.0:" ++ rest)) = txt "0.0.0.0:" ++ rest /\
  (forall cfg ports,
     dict_get (txt "ports") cfg = Some (VList ports) -> ports <> [] ->
     ports_lines (VDict cfg) =
     Ok ([txt "            publishPorts = ["] ++ map port_line ports
         ++ [txt "            ];"])).
Proof.
  intros Hc H1 H2.
  assert (port_text (VStr (addr ++ txt ":" ++ rest)) =
          txt "127.0.0.1:" ++ addr ++ txt ":" ++ rest) as E.
  { unfold port_text. change (txt ":" ++ rest) with (":" :: rest).
    rewrite contains_ch_app.
    destruct (startswith (txt "127.0.0.1:") (addr ++ ":" :: rest)) eqn:E1.
    { exfalso. apply H1. symmetry.
      apply (startswith_prefix_eq (txt "127.0.0.1") addr rest);
        [reflexivity|exact Hc|exact E1]. }
    destruct (startswith (txt "0.0.0.0:") (addr ++ ":" :: rest)) eqn:E2.
    { exfalso. apply H2. symmetry.
      apply (startswith_prefix_eq (txt "0.0.0.0") addr rest);
        [reflexivity|exact Hc|exact E2]. }
    reflexivity. }
  split; [exact E|]. split; [|split; [|split; [|split]]].
  5: { intros cfg ports Hget Hne.
       now rewrite (ports_lines_list cfg ports Hget Hne). }
  - rewrite E. intros H. apply (f_equal (@length ascii)) in H.
    rewrite length_app in H. cbn [length txt list_ascii_of_string] in H. lia.
  - unfold port_line. rewrite E. unfold indent, quoted.
    cbn [repeat txt list_ascii_of_string app]. do 15 f_equal.
    rewrite <- !app_assoc. reflexivity.
  - unfold port_text.
    rewrite (startswith_app (txt "127.0.0.1:") rest). cbn [negb andb].
    now destruct (contains_ch ":" (txt "127.0.0.1:" ++ rest)).
  - unfold port_text.
    rewrite (startswith_app (txt "0.0.0.0:") rest).
    cbn [negb andb]. rewrite andb_false_r.
    now destruct (contains_ch ":" (txt "0.0.0.0:" ++ rest)).
Qed.

Lemma port_bound_address_prefixed_demo :
  port_text (VStr (txt "192.168.1.1:8080:80")) =
    txt "127.0.0.1:192.168.1.1:8080:80" /\
  port_text (VStr (txt "192.168.1.1:8080:80")) <> txt "192.168.1.1:8080:80" /\
  port_line (VStr (txt "192.168.1.1:8080:80")) =
    txt "              " ++ [ascii_of_nat 34]
    ++ txt "127.0.0.1:192.168.1.1:8080:80" ++ [ascii_of_nat 34].
Proof.
  destruct (port_bound_address_prefixed (txt "192.168.1.1") (txt "8080:80")
              eq_refl ltac:(intros H; discriminate H)
              ltac:(intros H; discriminate H))
    as (Htext & Hneq & Hline & _).
  split; [exact Htext|]. split; [exact Hneq|exact Hline].
Defined.

(** * The variable table through a run *)

(** C8: [_extract_variables], in whatever order the set of names is
    visited, from a table with distinct keys.  An entry that is in the
    table keeps its value.  Every name found in a string that the
    discovery scans (an image, a string of a volume list, a string value
    of an environment mapping) is a key afterwards, with the value it had
    or, when it was not a key, with the value that
    [_suggest_variable_value] gives for it; the table has no other new
    entries, and its keys stay distinct, so a name has one value.  A name
    that the fixed suggestions do not list is given its own text in lower
    case between double quotes: "FOO_BAR" gives "foo_bar" in quotes.  The
    other methods of a run do not touch the table, and a run of [convert]
    keeps every entry that the table had. *)
Theorem variables_first_seen_wins (order : list str -> list str)
  (self self' : converter) (services : dict value) :
  visits_each order ->
  distinct (dict_keys (variables self)) = true ->
  _extract_variables order self (VDict services) = Ok self' ->
  (forall k v,
     dict_get k (variables self) = Some v ->
     dict_get k (variables self') = Some v) /\
  (forall service_name cfg s name,
     In (service_name, VDict cfg) services -> referenced_in cfg s ->
     In name (find_env_vars_str s) ->
     dict_get name (variables self') =
     Some (match dict_get name (variables self) with
           | Some v => v
           | None => _suggest_variable_value name
           end)) /\
  (forall k v,
     dict_get k (variables self') = Some v ->
     dict_get k (variables self) = Some v \/
     (dict_get k (variables self) = None /\
      v = _suggest_variable_value k)) /\
  distinct (dict_keys (variables self')) = true /\
  (forall var,
     dict_get var suggestions = None ->
     _suggest_variable_value var =
     ascii_of_nat 34 :: lower var ++ [ascii_of_nat 34]) /\
  _suggest_variable_value (txt "FOO_BAR") =
    ascii_of_nat 34 :: txt "foo_bar" ++ [ascii_of_nat 34] /\
  _suggest_variable_value [ascii_of_nat 201; ascii_of_nat 88] =
    [ascii_of_nat 34; ascii_of_nat 233; ascii_of_nat 120; ascii_of_nat 34] /\
  (forall vols p s1,
     _process_volumes self' vols p = Ok s1 -> variables s1 = variables self') /\
  (forall svcs p dependencies text s2,
     _generate_nix_config self' svcs p dependencies = Ok (text, s2) ->
     variables s2 = variables self') /\
  (forall pf cf o n w w' text s3 k v,
     convert pf self cf o n w = (Ok (text, s3), w') ->
     dict_get k (variables self) = Some v ->
     dict_get k (variables s3) = Some v).
Proof.
  intros Hord Hd Hrun.
  assert (forall pf cf o n w w' text s3 k v,
            convert pf self cf o n w = (Ok (text, s3), w') ->
            dict_get k (variables self) = Some v ->
            dict_get k (variables s3) = Some v) as Hconvert.
  { intros pf cf o n w w' text s3 k v Hc Hk.
    destruct (convert_ok_inv pf _ _ _ _ _ _ _ _ Hc) as [Hst _].
    destruct Hst as (t & doc & self1 & self2 & svcs & vols & dependencies
                     & _ & _ & _ & _ & _ & H6 & H7 & _ & H9).
    rewrite (generate_nix_config_variables _ _ _ _ _ _ H9).
    apply (extract_variables_keeps _ _ _ _ k v H7).
    now rewrite (process_volumes_variables _ _ _ _ H6). }
  pose proof Hrun as Hkeep.
  unfold _extract_variables, collect_env_vars in Hrun.
  cbn [py_items bind] in Hrun.
  apply bind_ok in Hrun as (names & Hscan & Hrun).
  apply Ok_inj in Hrun. subst self'. cbn [variables set_variables] in *.
  split; [|split; [|split; [|split; [|split; [|split; [|split;
    [|split; [|split]]]]]]]].
  - intros k v. apply define_variables_keeps.
  - intros service_name cfg s name Hin Href Hname.
    assert (In name (order names)) as Hvisit.
    { apply Hord.
      now apply (proj2 (scan_services_In _ _ _ Hscan) service_name cfg s
                   name). }
    destruct (dict_get name (variables self)) as [v|] eqn:E.
    + now apply define_variables_keeps.
    + now apply define_variables_adds.
  - intros k v Hk.
    destruct (dict_get k (variables self)) as [v0|] eqn:E.
    + left. rewrite (define_variables_keeps _ _ k v0 E) in Hk. exact Hk.
    + right. split; [reflexivity|].
      destruct (define_variables_keys (order names) (variables self) k)
        as [H|H]; [congruence|congruence|].
      rewrite (define_variables_adds _ _ k H E) in Hk. congruence.
  - now apply define_variables_distinct.
  - intros var Hvar. unfold _suggest_variable_value. now rewrite Hvar.
  - vm_compute. reflexivity.
  - vm_compute. reflexivity.
  - intros vols p s1. apply process_volumes_variables.
  - intros svcs p dependencies text s2. apply generate_nix_config_variables.
  - exact Hconvert.
Qed.

Lemma variables_first_seen_wins_demo :
  _extract_variables (@rev str)
    (MkConverter [(txt "DB_USERNAME", txt "mine")] [] [])
    (VDict
       [(txt "web",
         VDict [(txt "image", VStr (txt "app:${FOO_BAR}"));
                (txt "environment",
                 VDict [(txt "PGUSER", VStr (txt "${DB_USERNAME}"))])])]) =
  Ok (MkConverter
        [(txt "DB_USERNAME", txt "mine");
         (txt "FOO_BAR",
          ascii_of_nat 34 :: txt "foo_bar" ++ [ascii_of_nat 34])] [] []) /\
  dict_get (txt "DB_USERNAME")
    [(txt "DB_USERNAME", txt "mine");
     (txt "FOO_BAR", ascii_of_nat 34 :: txt "foo_bar" ++ [ascii_of_nat 34])] =
  Some (txt "mine") /\
  dict_get (txt "FOO_BAR")
    [(txt "DB_USERNAME", txt "mine");
     (txt "FOO_BAR", ascii_of_nat 34 :: txt "foo_bar" ++ [ascii_of_nat 34])] =
  Some (ascii_of_nat 34 :: txt "foo_bar" ++ [ascii_of_nat 34]).
Proof.
  assert (visits_each (@rev str)) as Hord.
  { intros l x. symmetry. apply in_rev. }
  destruct (variables_first_seen_wins (@rev str)
              (MkConverter [(txt "DB_USERNAME", txt "mine")] [] [])
              (MkConverter
                 [(txt "DB_USERNAME", txt "mine");
                  (txt "FOO_BAR",
                   ascii_of_nat 34 :: txt "foo_bar" ++ [ascii_of_nat 34])]
                 [] [])
              [(txt "web",
                VDict [(txt "image", VStr (txt "app:${FOO_BAR}"));
                       (txt "environment",
                        VDict [(txt "PGUSER",
                                VStr (txt "${DB_USERNAME}"))])])]
              Hord eq_refl eq_refl)
    as (Hkeep & Hnew & _).
  split; [reflexivity|]. split.
  - apply (Hkeep (txt "DB_USERNAME") (txt "mine")). reflexivity.
  - apply (Hnew (txt "web")
             [(txt "image", VStr (txt "app:${FOO_BAR}"));
              (txt "environment",
               VDict [(txt "PGUSER", VStr (txt "${DB_USERNAME}"))])]
             (txt "app:${FOO_BAR}") (txt "FOO_BAR")).
    + now left.
    + now left.
    + vm_compute. now left.
Defined.
